(** * streamlit_app.py: query similarity and objectives viewer

    A shallow embedding of the Streamlit script [streamlit_app.py]:
    the reshaping of the flat Neo4j rows into nested query records
    ([fetch_queries_with_objectives_and_details]), the scoring of the
    records against the typed text ([calculate_similarity]), the
    [sorted] call, and the [try]/[except]/[finally] block that renders
    the result.

    Python objects that are mutated through a reference (the query
    dicts, the lists that hold them) live in an explicit heap; calls
    into the collaborators (the Neo4j session, the embedding model, the
    Streamlit elements, [driver.close]) are recorded in a trace.
    Similarity scores are floating point numbers in the script; they are
    idealised here as rationals, which agree with finite floats on
    every comparison the script makes.  The arithmetic that produces
    them (the embedding model and the product in [np.dot]) is not
    fixed by the script and is left as parameters. *)

From Stdlib Require Import QArith.
From stdpp Require Import gmap strings list sorting pretty.

Local Open Scope Z_scope.
Local Open Scope string_scope.
Local Open Scope list_scope.
Local Open Scope stdpp_scope.

(** ** Values read from the store *)

(** A property of a Neo4j node comes back as whatever Python value the
    store holds for it: a missing property is [None], and nothing in the
    script checks that a name is a string. *)
Inductive PyVal : Type :=
  | PNone
  | PInt (z : Z)
  | PStr (s : string).

#[global] Instance PyVal_eq_dec : EqDecision PyVal.
Proof. solve_decision. Defined.

(** [type(v).__name__] *)
Definition type_name (v : PyVal) : string :=
  match v with
  | PNone => "NoneType"
  | PInt _ => "int"
  | PStr _ => "str"
  end.

(** [isinstance(v, str)] *)
Definition is_str (v : PyVal) : bool :=
  match v with
  | PStr _ => true
  | _ => false
  end.

(** [str(v)], as an f-string formats a value. *)
Definition py_str (v : PyVal) : string :=
  match v with
  | PNone => "None"
  | PInt z => pretty z
  | PStr s => s
  end.

(** One record of the Cypher result (lines 24-30). *)
Record Row : Type := mkRow {
  query_id : PyVal;
  query_text : PyVal;
  objective_id : PyVal;
  objective_name : PyVal;
  traffic_sources : list PyVal;
  kpis : list PyVal
}.

(** The dict appended at lines 43-48. *)
Record Objective : Type := mkObjective {
  o_id : PyVal;
  o_name : PyVal;
  o_traffic_sources : list PyVal;
  o_kpis : list PyVal
}.

(** The dict created at lines 38-42.  The key ["similarity"] is absent
    until [calculate_similarity] stores it: [q_similarity] is [None] for
    an absent key. *)
Record Query : Type := mkQuery {
  q_id : PyVal;
  q_query : PyVal;
  q_objectives : list Objective;
  q_similarity : option Q
}.

(** ** Reshaping the rows (lines 34-49) *)

Module Fetch.

(** The local dict [queries] keeps insertion order, which
    [list(queries.values())] exposes: an association list, new keys at
    the end. *)
Definition QueriesDict : Type := list (PyVal * Query).

(** [query_id in queries] *)
Definition dict_contains (k : PyVal) (d : QueriesDict) : bool :=
  bool_decide (k ∈ d.*1).

(** [queries[k] = v] for a key that is not yet there. *)
Definition dict_add (k : PyVal) (v : Query) (d : QueriesDict) : QueriesDict :=
  d ++ [(k, v)].

(** In-place update of the value stored under [k]. *)
Fixpoint dict_update (k : PyVal) (f : Query → Query) (d : QueriesDict)
  : QueriesDict :=
  match d with
  | [] => []
  | (k', v) :: d' =>
      if decide (k' = k) then (k', f v) :: d'
      else (k', v) :: dict_update k f d'
  end.

Definition new_query (record : Row) : Query :=
  {| q_id := query_id record;
     q_query := query_text record;
     q_objectives := [];
     q_similarity := None |}.

Definition objective_of (record : Row) : Objective :=
  {| o_id := objective_id record;
     o_name := objective_name record;
     o_traffic_sources := traffic_sources record;
     o_kpis := kpis record |}.

(** [q["objectives"].append(o)] *)
Definition append_objective (o : Objective) (q : Query) : Query :=
  {| q_id := q_id q;
     q_query := q_query q;
     q_objectives := q_objectives q ++ [o];
     q_similarity := q_similarity q |}.

(** The body of the [for record in result] loop. *)
Definition loop_body (queries : QueriesDict) (record : Row) : QueriesDict :=
  let query_id := query_id record in
  let queries :=
    if dict_contains query_id queries then queries
    else dict_add query_id (new_query record) queries in
  dict_update query_id (append_objective (objective_of record)) queries.

(** [list(queries.values())] after the loop. *)
Definition reshape (rows : list Row) : list Query :=
  (fold_left loop_body rows []).*2.

(** The rows of the result that bear a given query id. *)
Definition rows_of (k : PyVal) (rows : list Row) : list Row :=
  filter (λ r, query_id r = k) rows.

End Fetch.

(** ** Run-time model: heap, trace, exceptions *)

Module Py.

(** A raised exception: its class and [str(e)]. *)
Record Exn : Type := mkExn {
  exn_class : string;
  exn_msg : string
}.

(** References to heap objects. *)
Abbreviation loc := nat (only parsing).

(** Calls into the collaborators, in the order the script makes them. *)
Inductive Event : Type :=
  | SessionRun                          (* session.run(query) *)
  | ModelEncode (texts : list PyVal)    (* model.encode(texts) *)
  | StWrite (body : string)             (* st.write *)
  | StWarning (body : string)           (* st.warning *)
  | StError (body : string)             (* st.error *)
  | StSubheader (body : string)         (* st.subheader *)
  | StExpander (label : string)         (* with st.expander(label) *)
  | StTabs (labels : list PyVal)        (* st.tabs(labels) *)
  | StTab (idx : nat)                   (* with tabs[idx] *)
  | DriverClose.                        (* driver.close() *)

#[global] Instance Event_eq_dec : EqDecision Event.
Proof. solve_decision. Defined.

(** The query dicts and the lists of references to them are the objects
    the script shares and mutates; everything else is a value. *)
Record State : Type := mkState {
  dicts : gmap nat Query;
  lists : gmap nat (list nat);
  trace : list Event
}.

Definition init : State :=
  {| dicts := ∅; lists := ∅; trace := [] |}.

(** A computation either returns or raises, and keeps its effects in
    both cases. *)
Definition M (A : Type) : Type := State → (Exn + A) * State.

Definition ret {A} (a : A) : M A := λ s, (inr a, s).

Definition bind {A B} (m : M A) (k : A → M B) : M B :=
  λ s, match m s with
       | (inr a, s') => k a s'
       | (inl e, s') => (inl e, s')
       end.

Definition raise {A} (e : Exn) : M A := λ s, (inl e, s).

(** The outcome of a pure step that may raise. *)
Definition lift {A} (r : Exn + A) : M A := λ s, (r, s).

Definition emit (ev : Event) : M unit :=
  λ s, (inr (), {| dicts := dicts s; lists := lists s;
                   trace := trace s ++ [ev] |}).

(** [try: m  except Exception as e: h e] *)
Definition try_except {A} (m : M A) (h : Exn → M A) : M A :=
  λ s, match m s with
       | (inr a, s') => (inr a, s')
       | (inl e, s') => h e s'
       end.

(** [try: m  finally: f] *)
Definition try_finally {A} (m : M A) (f : M unit) : M A :=
  λ s, match m s with
       | (r, s') =>
           match f s' with
           | (inr _, s'') => (r, s'')
           | (inl e, s'') => (inl e, s'')
           end
       end.

End Py.

Import Py.

#[global] Instance M_ret : MRet M := @Py.ret.
#[global] Instance M_bind : MBind M := λ A B k m, Py.bind m k.

Module Heap.

(** A reference that the script holds always points to an object; the
    model raises on a dangling one so that every operation is total. *)
Definition dangling : Exn :=
  {| exn_class := "SystemError"; exn_msg := "dangling reference" |}.

Definition read_dict (l : nat) : M Query :=
  λ s, match dicts s !! l with
       | Some d => (inr d, s)
       | None => (inl dangling, s)
       end.

Definition read_list (l : nat) : M (list nat) :=
  λ s, match lists s !! l with
       | Some ls => (inr ls, s)
       | None => (inl dangling, s)
       end.

(** A new dict object. *)
Definition alloc_dict (d : Query) : M nat :=
  λ s, let l := fresh (dom (dicts s)) in
       (inr l, {| dicts := <[l := d]> (dicts s); lists := lists s;
                  trace := trace s |}).

(** A new list object. *)
Definition alloc_list (ls : list nat) : M nat :=
  λ s, let l := fresh (dom (lists s)) in
       (inr l, {| dicts := dicts s; lists := <[l := ls]> (lists s);
                  trace := trace s |}).

Definition set_similarity (x : Q) (d : Query) : Query :=
  {| q_id := q_id d;
     q_query := q_query d;
     q_objectives := q_objectives d;
     q_similarity := Some x |}.

(** [query["similarity"] = x] on the dict that [l] refers to. *)
Definition store_similarity (l : nat) (x : Q) : M unit :=
  λ s, match dicts s !! l with
       | Some d =>
           (inr (), {| dicts := <[l := set_similarity x d]> (dicts s);
                       lists := lists s; trace := trace s |})
       | None => (inl dangling, s)
       end.

(** [d["similarity"]] *)
Definition getitem_similarity (d : Query) : Exn + Q :=
  match q_similarity d with
  | Some x => inr x
  | None => inl {| exn_class := "KeyError"; exn_msg := "'similarity'" |}
  end.

(** [xs[i]] on a list. *)
Definition list_getitem {A} (xs : list A) (i : nat) : Exn + A :=
  match xs !! i with
  | Some x => inr x
  | None => inl {| exn_class := "IndexError";
                   exn_msg := "list index out of range" |}
  end.

(** [[f(x) for x in xs]] *)
Fixpoint map_m {A B} (f : A → M B) (xs : list A) : M (list B) :=
  match xs with
  | [] => ret []
  | x :: xs' => y ← f x; ys ← map_m f xs'; ret (y :: ys)
  end.

(** [for i, x in enumerate(xs): f(i, x)], counting from [i]. *)
Fixpoint for_enumerate {A} (f : nat → A → M unit) (i : nat) (xs : list A)
  : M unit :=
  match xs with
  | [] => ret ()
  | x :: xs' => f i x;; for_enumerate f (S i) xs'
  end.

(** [for x in xs: f(x)] *)
Fixpoint for_each {A} (f : A → M unit) (xs : list A) : M unit :=
  match xs with
  | [] => ret ()
  | x :: xs' => f x;; for_each f xs'
  end.

(** The records that a list object holds, read through its references. *)
Definition read_back (s : State) (l : nat) : option (list Query) :=
  refs ← lists s !! l; mapM (λ x, dicts s !! x) refs.

End Heap.

Import Heap.

(** ** numpy on the embedding matrices (line 58) *)

Module Np.

Section Kernel.
(** The product of two vectors as numpy computes it.  The kernel works
    in floating point and the script fixes neither the order of its
    additions nor its rounding: the product is a parameter, of which
    nothing is assumed.  A matrix is the list of its rows. *)
Variable dot : list Q → list Q → Q.

(** The second component of [a.shape]. *)
Definition width (a : list (list Q)) : nat :=
  match a with
  | [] => 0%nat
  | u :: _ => length u
  end.

Definition shape_str (n m : nat) : string :=
  "(" ++ pretty n ++ "," ++ pretty m ++ ")".

(** [np.dot(a, b.T).flatten()]: the inner dimensions must agree; the
    product is read row by row. *)
Definition dot_T_flatten (a b : list (list Q)) : Exn + list Q :=
  if decide (width a = width b) then
    inr (flat_map (λ u, map (dot u) b) a)
  else
    inl {| exn_class := "ValueError";
           exn_msg := "shapes " ++ shape_str (length a) (width a)
                      ++ " and " ++ shape_str (width b) (length b)
                      ++ " not aligned: " ++ pretty (width a)
                      ++ " (dim 1) != " ++ pretty (width b) ++ " (dim 0)" |}.
End Kernel.

(** [similarities[i]] *)
Definition getitem (xs : list Q) (i : nat) : Exn + Q :=
  match xs !! i with
  | Some x => inr x
  | None =>
      inl {| exn_class := "IndexError";
             exn_msg := "index " ++ pretty i
                        ++ " is out of bounds for axis 0 with size "
                        ++ pretty (length xs) |}
  end.

End Np.

(** ** [sorted(xs, key=..., reverse=True)] (line 79) *)

Module Sorted.

(** [x < y] on scores. *)
Definition Qltb (x y : Q) : bool := negb (Qle_bool y x).

Section Sort.
Context {A : Type}.

(** The list sort compares keys with [<] only, and puts an element
    behind the elements already placed that are not greater. *)
Fixpoint insort (x : Q * A) (l : list (Q * A)) : list (Q * A) :=
  match l with
  | [] => [x]
  | y :: l' => if Qltb x.1 y.1 then x :: y :: l' else y :: insort x l'
  end.

Definition list_sort (l : list (Q * A)) : list (Q * A) :=
  fold_left (λ acc x, insort x acc) l [].

(** With [reverse=True] the list is reversed, sorted, and reversed
    again, which keeps equal keys in their original order. *)
Definition sort_reverse (l : list (Q * A)) : list (Q * A) :=
  reverse (list_sort (reverse l)).

(** The keys are computed once, before any comparison. *)
Definition sorted_reverse (keys : list Q) (xs : list A) : list A :=
  (sort_reverse (zip keys xs)).*2.
End Sort.

End Sorted.

(** ** The functions of the script *)

Module App.

Section Script.
(** What the session yields for the fixed Cypher query: the rows, or
    the exception the driver raises. *)
Variable store : Exn + list Row.

(** [model.encode]: one embedding per text, or an exception. *)
Variable encode : list PyVal → Exn + list (list Q).

(** The product of two vectors in [np.dot]. *)
Variable dot : list Q → list Q → Q.

Definition model_encode (texts : list PyVal) : M (list (list Q)) :=
  emit (ModelEncode texts);; lift (encode texts).

(** Lines 32-49.  The dicts that the loop builds are new objects that
    only [queries] refers to until the function returns; the loop is
    embedded on their values ([Fetch.reshape]) and the objects are
    put on the heap when the list of them is returned. *)
Definition fetch_queries_with_objectives_and_details : M nat :=
  emit SessionRun;;
  rows ← lift store;
  refs ← map_m alloc_dict (Fetch.reshape rows);
  alloc_list refs.

(** Lines 51-61. *)
Definition calculate_similarity (queries : nat) (input_text : string)
  : M nat :=
  qs ← read_list queries;
  query_texts ← map_m (λ q, d ← read_dict q; mret (q_query d)) qs;
  query_embeddings ← model_encode query_texts;
  input_embedding ← model_encode [PStr input_text];
  similarities ←
    lift (Np.dot_T_flatten dot query_embeddings input_embedding);
  for_enumerate
    (λ i query, x ← lift (Np.getitem similarities i);
                store_similarity query x) 0 qs;;
  mret queries.

(** Line 79: a new list of the same dict objects. *)
Definition sorted_by_similarity (xs : nat) : M nat :=
  qs ← read_list xs;
  keys ← map_m (λ x, d ← read_dict x; lift (getitem_similarity d)) qs;
  alloc_list (Sorted.sorted_reverse keys qs).

(** [', '.join(xs)] *)
Fixpoint join_items (i : nat) (xs : list PyVal) : Exn + list string :=
  match xs with
  | [] => inr []
  | PStr s :: xs' =>
      match join_items (S i) xs' with
      | inr ss => inr (s :: ss)
      | inl e => inl e
      end
  | v :: _ =>
      inl {| exn_class := "TypeError";
             exn_msg := "sequence item " ++ pretty i
                        ++ ": expected str instance, "
                        ++ type_name v ++ " found" |}
  end.

Definition str_join (sep : string) (xs : list PyVal) : Exn + string :=
  match join_items 0 xs with
  | inr ss => inr (String.concat sep ss)
  | inl e => inl e
  end.

(** [', '.join(xs) if xs else 'None'] *)
Definition join_or_none (xs : list PyVal) : Exn + string :=
  match xs with
  | [] => inr "None"
  | _ => str_join ", " xs
  end.

(** Lines 95-97. *)
Definition render_objective (idx : nat) (obj : Objective) : M unit :=
  emit (StTab idx);;
  ts ← lift (join_or_none (o_traffic_sources obj));
  emit (StWrite ("**Traffic Sources:** " ++ ts));;
  ks ← lift (join_or_none (o_kpis obj));
  emit (StWrite ("**KPIs:** " ++ ks)).

(** What Streamlit answers to [st.tabs(labels)]: it wants at least one
    label, and every label a string. *)
Definition tabs_check (labels : list PyVal) : Exn + unit :=
  match labels with
  | [] =>
      inl {| exn_class := "StreamlitAPIException";
             exn_msg := "The input argument to st.tabs must contain "
                        ++ "at least one tab label." |}
  | _ =>
      if forallb is_str labels then inr ()
      else
        inl {| exn_class := "StreamlitAPIException";
               exn_msg := "The tabs input list to st.tabs is only "
                          ++ "allowed to contain strings." |}
  end.

(** [st.tabs(labels)]: the call, then what Streamlit answers. *)
Definition st_tabs (labels : list PyVal) : M unit :=
  emit (StTabs labels);; lift (tabs_check labels).

(** Lines 88-97. *)
Definition render_query (query : nat) : M unit :=
  d ← read_dict query;
  emit (StExpander (py_str (q_query d)));;
  emit (StWrite "**Related Objectives:**");;
  st_tabs (o_name <$> q_objectives d);;
  for_enumerate render_objective 0 (q_objectives d).

Definition threshold : Q := 3 # 10.

(** Lines 82-97. *)
Definition present (similar_queries : nat) : M unit :=
  qs ← read_list similar_queries;
  top ← lift (list_getitem qs 0);
  d ← read_dict top;
  x ← lift (getitem_similarity d);
  if Sorted.Qltb x threshold then
    emit (StWarning "The input query might not be relevant to marketing.")
  else
    emit (StSubheader "Top Similar Queries:");;
    for_each render_query (take 5 qs).

(** Lines 73-97, the body of the [try]. *)
Definition try_body (input_text : string) : M unit :=
  queries ← fetch_queries_with_objectives_and_details;
  qs ← read_list queries;
  match qs with
  | [] => emit (StWrite "No queries found in the database.")
  | _ =>
      similar_queries ← calculate_similarity queries input_text;
      similar_queries ← sorted_by_similarity similar_queries;
      present similar_queries
  end.

(** Line 99. *)
Definition handler (e : Exn) : M unit :=
  emit (StError ("An error occurred: " ++ exn_msg e)).

(** Lines 70-101. *)
Definition request_cycle (input_text : string) : M unit :=
  match input_text with
  | "" => mret ()
  | _ =>
      try_finally (try_except (try_body input_text) handler)
                  (emit DriverClose)
  end.
End Script.

End App.

(** ** The vocabulary of the statements *)

Module Props.
Import Fetch App.

#[global] Instance Qeq_decision : RelDecision Qeq := Qeq_dec.

(** What the dict of the reshaping loop holds after the loop has
    consumed [rows]. *)
Definition grouped (rows : list Row) (d : QueriesDict) : Prop :=
  NoDup d.*1 ∧
  (∀ k, k ∈ d.*1 ↔ k ∈ query_id <$> rows) ∧
  (∀ k q, (k, q) ∈ d →
     q_id q = k ∧
     q_objectives q = objective_of <$> rows_of k rows ∧
     q_similarity q = None).

(** [m] only appends to the trace, and what it appends satisfies [P]. *)
Definition emits {A} (P : Event → Prop) (m : M A) : Prop :=
  ∀ s, ∃ evs, trace (m s).2 = trace s ++ evs ∧ Forall P evs.

(** The state after [evs] have been added to the trace. *)
Definition emitted (s : State) (evs : list Event) : State :=
  {| dicts := dicts s; lists := lists s; trace := trace s ++ evs |}.

(** The events of the Streamlit elements. *)
Definition is_st (ev : Event) : bool :=
  match ev with
  | StWrite _ | StWarning _ | StError _ | StSubheader _
  | StExpander _ | StTabs _ | StTab _ => true
  | SessionRun | ModelEncode _ | DriverClose => false
  end.

Definition is_warning (ev : Event) : bool :=
  match ev with
  | StWarning _ => true
  | _ => false
  end.

(** What the page shows: the calls to Streamlit among the events of a
    trace. *)
Definition page (evs : list Event) : list Event :=
  filter (λ ev, is_st ev = true) evs.

Section Keys.
Context {A : Type}.

(** Ascending and descending order of the keys. *)
Definition ascending (x y : Q * A) : Prop := (x.1 <= y.1)%Q.

Definition descending (x y : Q * A) : Prop := (y.1 <= x.1)%Q.

(** The elements whose key is [k], in order. *)
Definition with_key (k : Q) (l : list (Q * A)) : list (Q * A) :=
filter (λ x, (x.1 == k)%Q) l.

(** An element next to its key. *)
Definition keyed (f : A → Q) (z : A) : Q * A := (f z, z).
End Keys.

(** Every reference of [qs] points to a dict; [ds] are those dicts. *)
Definition points_to (s : State) (qs : list nat) (ds : list Query) : Prop :=
  Forall2 (λ x d, dicts s !! x = Some d) qs ds.

(** The dicts after [query["similarity"] = x] has run for each pair, in
    order. *)
Definition store_all (h : gmap nat Query) (xs : list (nat * Q))
  : gmap nat Query :=
  foldl (λ h p, alter (set_similarity p.2) p.1 h) h xs.



(** The similarity stored in the dict that [x] refers to. *)
Definition similarity_of (s : State) (x : nat) : Q :=
  from_option id 0%Q (dicts s !! x ≫= q_similarity).

(** Every dict that [qs] refers to holds a similarity. *)
Definition scored (s : State) (qs : list nat) : Prop :=
  Forall (λ x, is_Some (dicts s !! x ≫= q_similarity)) qs.

(** The strings of a list of values. *)
Definition as_strings (xs : list PyVal) : list string :=
  omap (λ v, match v with PStr a => Some a | _ => None end) xs.

(** The list holds strings only, as the store contract has it. *)
Definition strings_only (xs : list PyVal) : Prop :=
  xs = PStr <$> as_strings xs.

(** A field of an objective as the page shows it. *)
Definition shown (names : list string) : string :=
  match names with
  | [] => "None"
  | _ => String.concat ", " names
  end.

(** The elements of one tab. *)
Definition objective_events (idx : nat) (obj : Objective) : list Event :=
  [StTab idx;
   StWrite ("**Traffic Sources:** "
            ++ shown (as_strings (o_traffic_sources obj)));
   StWrite ("**KPIs:** " ++ shown (as_strings (o_kpis obj)))].

Fixpoint tabs_events (idx : nat) (objs : list Objective) : list Event :=
  match objs with
  | [] => []
  | obj :: objs' => objective_events idx obj ++ tabs_events (S idx) objs'
  end.

(** The elements of one entry of the result list. *)
Definition query_events (d : Query) : list Event :=
  [StExpander (py_str (q_query d));
   StWrite "**Related Objectives:**";
   StTabs (o_name <$> q_objectives d)]
  ++ tabs_events 0 (q_objectives d).

(** The objective can be rendered: its name, its traffic sources and
    its KPIs are strings. *)
Definition objective_typed (obj : Objective) : Prop :=
  is_str (o_name obj) = true ∧
  strings_only (o_traffic_sources obj) ∧
  strings_only (o_kpis obj).

(** The record can be rendered: it has an objective, and all its
    objectives can be rendered. *)
Definition well_typed (d : Query) : Prop :=
  q_objectives d ≠ [] ∧ Forall objective_typed (q_objectives d).

(** C4 as it is stated, for a ranked list [l] of records [ds] whose
    first has similarity [k]. *)
Definition presents_as_claimed
    (s : State) (l : nat) (ds : list Query) (k : Q) : Prop :=
  ((k < 3 # 10)%Q →
   present l s =
   (inr (),
    emitted s
      [StWarning "The input query might not be relevant to marketing."])) ∧
  ((3 # 10 <= k)%Q →
   present l s =
   (inr (),
    emitted s (StSubheader "Top Similar Queries:"
               :: concat (query_events <$> take 5 ds)))).

(** The element that line 99 puts on the page. *)
Definition error_message (e : Exn) : Event :=
  StError ("An error occurred: " ++ exn_msg e).

(** The exception of a cycle comes from fetching or from scoring, that
    is, before anything is rendered. *)
Definition raised_before_render
    (store : Exn + list Row) (encode : list PyVal → Exn + list (list Q))
    (dot : list Q → list Q → Q) (input : string) (s : State) : bool :=
  match fetch_queries_with_objectives_and_details store s with
  | (inl _, _) => true
  | (inr l, s0) =>
      match calculate_similarity encode dot l input s0 with
      | (inl _, _) => true
      | (inr _, _) => false
      end
  end.

(** A cycle is all-or-nothing: when its body raises, the error message
    is the only thing that the cycle has put on the page. *)
Definition all_or_nothing
    (store : Exn + list Row) (encode : list PyVal → Exn + list (list Q))
    (dot : list Q → list Q → Q) (input : string) (s : State) : Prop :=
  ∀ e s1 evs,
    try_body store encode dot input s = (inl e, s1) →
    trace (request_cycle store encode dot input s).2 = trace s ++ evs →
    page evs = [error_message e].

End Props.

Import Props.

(** ** Concrete stores, models and heaps *)

Module Example.
Import App.

(** The rows of the example of the specification, and a second query. *)
Definition rows : list Row :=
  [ mkRow (PStr "q1") (PStr "A") (PStr "o1") (PStr "Obj1") [] [];
    mkRow (PStr "q1") (PStr "A") (PStr "o2") (PStr "Obj2")
          [PStr "Ads"] [PStr "CTR"];
    mkRow (PStr "q2") (PStr "B") (PStr "o1") (PStr "Obj1") [PStr "SEO"] [] ].

(** The same store with a number among the names of the traffic sources
    of the second objective of the first query. *)
Definition rows_with_number : list Row :=
  [ mkRow (PStr "q1") (PStr "A") (PStr "o1") (PStr "Obj1") [] [];
    mkRow (PStr "q1") (PStr "A") (PStr "o2") (PStr "Obj2")
          [PStr "Ads"; PInt 7] [PStr "CTR"];
    mkRow (PStr "q2") (PStr "B") (PStr "o1") (PStr "Obj1") [PStr "SEO"] [] ].

(** The records that [rows] reshape to. *)
Definition query_A : Query :=
  {| q_id := PStr "q1"; q_query := PStr "A";
     q_objectives :=
       [ mkObjective (PStr "o1") (PStr "Obj1") [] [];
         mkObjective (PStr "o2") (PStr "Obj2") [PStr "Ads"] [PStr "CTR"] ];
     q_similarity := None |}.

Definition query_B : Query :=
  {| q_id := PStr "q2"; q_query := PStr "B";
     q_objectives := [ mkObjective (PStr "o1") (PStr "Obj1") [PStr "SEO"] [] ];
     q_similarity := None |}.

(** A kernel that does not round. *)
Definition exact_dot (u v : list Q) : Q :=
  foldr Qplus 0%Q (zip_with Qmult u v).

(** A model with embeddings of dimension two. *)
Definition vector (text : PyVal) : list Q :=
  match text with
  | PStr "A" => [1 # 2; 0]
  | PStr "B" => [4 # 5; 0]
  | _ => [1; 0]
  end%Q.

Definition encode (texts : list PyVal) : Exn + list (list Q) :=
  inr (vector <$> texts).

(** A model for which no query of the store is close to the input. *)
Definition vector_far (text : PyVal) : list Q :=
  match text with
  | PStr "A" => [1 # 10; 0]
  | PStr "B" => [29 # 100; 0]
  | _ => [1; 0]
  end%Q.

Definition encode_far (texts : list PyVal) : Exn + list (list Q) :=
  inr (vector_far <$> texts).

(** The exception of a store that cannot be reached. *)
Definition unavailable : Exn :=
  {| exn_class := "ServiceUnavailable";
     exn_msg := "Unable to retrieve routing information" |}.

(** The exception that line 96 raises on [rows_with_number]. *)
Definition join_error : Exn :=
  {| exn_class := "TypeError";
     exn_msg := "sequence item 1: expected str instance, int found" |}.

(** A scored record with a number among the names of the traffic
    sources of its second objective. *)
Definition query_number : Query :=
  {| q_id := PStr "q1"; q_query := PStr "A";
     q_objectives :=
       [ mkObjective (PStr "o1") (PStr "Obj1") [] [];
         mkObjective (PStr "o2") (PStr "Obj2")
                     [PStr "Ads"; PInt 7] [PStr "CTR"] ];
     q_similarity := Some (3 # 10) |}.

(** A heap with the ranked list 0 of that record. *)
Definition ranked_number : State :=
  {| dicts := {[ 0%nat := query_number ]};
     lists := {[ 0%nat := [0%nat] ]};
     trace := [] |}.

(** The heap after the rows have been fetched: dicts 0 and 1, and the
    list 0 that refers to them. *)
Definition fetched : State :=
  (fetch_queries_with_objectives_and_details (inr rows) init).2.

(** A heap with three scored records, two of them with equal scores,
    and the list 0 of them in the order of the store. *)
Definition tied : State :=
  {| dicts := {[ 0%nat := set_similarity (1 # 2) query_A;
                 1%nat := set_similarity (4 # 5) query_B;
                 2%nat := set_similarity (2 # 4) query_B ]};
     lists := {[ 0%nat := [0; 1; 2]%nat ]};
     trace := [] |}.

(** A heap with the ranked list 0 of one record of similarity [k]. *)
Definition ranked (k : Q) : State :=
  {| dicts := {[ 0%nat := set_similarity k query_A ]};
     lists := {[ 0%nat := [0%nat] ]};
     trace := [] |}.

End Example.

(** ** More vocabulary: the shape of the reshaped list *)

Module Grouping.
Import Fetch.

(** The ids of a list, each at its first occurrence. *)
Fixpoint first_occurrences (ks : list PyVal) : list PyVal :=
  match ks with
  | [] => []
  | k :: ks' => k :: filter (λ k', k' ≠ k) (first_occurrences ks')
  end.

(** The record that gathers the rows bearing the id [k]: the text of the
    first of them, and the objectives of all of them. *)
Definition group_of (rows : list Row) (k : PyVal) : Query :=
  {| q_id := k;
     q_query := from_option query_text PNone (head (rows_of k rows));
     q_objectives := objective_of <$> rows_of k rows;
     q_similarity := None |}.

(** The number of objectives that a list of records holds. *)
Definition objective_count (qs : list Query) : nat :=
  sum_list ((λ q, length (q_objectives q)) <$> qs).

End Grouping.

(** ** More vocabulary: the outcomes of scoring *)

Module Scoring.
Import App.

(** Lines 56-58 as one step: the scores, or the exception of the model
    or of the product. *)
Definition scores_of (encode : list PyVal → Exn + list (list Q))
    (dot : list Q → list Q → Q)
    (texts : list PyVal) (input : string) : Exn + list Q :=
  match encode texts with
  | inl e => inl e
  | inr query_embeddings =>
      match encode [PStr input] with
      | inl e => inl e
      | inr input_embedding =>
          Np.dot_T_flatten dot query_embeddings input_embedding
      end
  end.

(** The calls that lines 56-57 make to the model. *)
Definition model_calls (encode : list PyVal → Exn + list (list Q))
    (texts : list PyVal) (input : string) : list Event :=
  ModelEncode texts ::
  match encode texts with
  | inl _ => []
  | inr _ => [ModelEncode [PStr input]]
  end.

(** What the loop of lines 59-60 ends with on scores [sims] for [n]
    records: it runs through, or the index leaves the array. *)
Definition loop_result {A} (a : A) (n : nat) (sims : list Q) : Exn + A :=
  if decide (n ≤ length sims)%nat then inr a
  else
    inl {| exn_class := "IndexError";
           exn_msg := "index " ++ pretty (length sims)
                      ++ " is out of bounds for axis 0 with size "
                      ++ pretty (length sims) |}.

End Scoring.

(** ** More vocabulary: a join that fails *)

Module Joining.

(** The exception of [', '.join] at an item that is not a string. *)
Definition join_type_error (i : nat) (v : PyVal) : Exn :=
  {| exn_class := "TypeError";
     exn_msg := "sequence item " ++ pretty i ++ ": expected str instance, "
                ++ type_name v ++ " found" |}.

(** The value is not a string. *)
Definition not_str (v : PyVal) : Prop :=
  match v with
  | PStr _ => False
  | _ => True
  end.

End Joining.

(** ** More vocabulary: what a cycle puts on the page *)

Module Outcome.
Import App Props.

(** Two keyed elements with the same key and related payloads. *)
Definition related {A B} (R : A → B → Prop) (p : Q * A) (q : Q * B) : Prop :=
  p.1 = q.1 ∧ R p.2 q.2.

(** A row can be rendered: the name of its objective, its traffic
    sources and its KPIs are strings. *)
Definition row_typed (r : Row) : Prop :=
  is_str (objective_name r) = true ∧
  strings_only (traffic_sources r) ∧
  strings_only (kpis r).

(** The similarity that a record holds. *)
Definition score (d : Query) : Q := from_option id 0%Q (q_similarity d).

(** The records with their scores, in the order of the store. *)
Definition scored_records (sims : list Q) (recs : list Query) : list Query :=
  zip_with set_similarity sims recs.

(** The scored records in the order of line 79. *)
Definition ranked_records (sims : list Q) (recs : list Query) : list Query :=
  Sorted.sorted_reverse sims (scored_records sims recs).

(** What lines 82-97 put on the page for a ranked list. *)
Definition results_events (ranked : list Query) : list Event :=
  match ranked with
  | [] => []
  | top :: _ =>
      if Sorted.Qltb (from_option id 0%Q (q_similarity top)) threshold then
        [StWarning "The input query might not be relevant to marketing."]
      else
        StSubheader "Top Similar Queries:"
        :: concat (query_events <$> take 5 ranked)
  end.

End Outcome.

(** ** More vocabulary: tabs and their labels *)

Module Tabs.

(** Every dict of the heap has at least one objective. *)
Definition objectives_nonempty (s : State) : Prop :=
  map_Forall (λ _ d, q_objectives d ≠ []) (dicts s).

(** The event is not a call of [st.tabs] without a label. *)
Definition has_labels (ev : Event) : Prop :=
  match ev with
  | StTabs labels => labels ≠ []
  | _ => True
  end.

(** From a heap whose dicts have objectives, [m] leaves such a heap and
    never calls [st.tabs] without a label. *)
Definition tidy {A} (m : M A) : Prop :=
  ∀ s, objectives_nonempty s →
    objectives_nonempty (m s).2 ∧
    ∃ evs, trace (m s).2 = trace s ++ evs ∧ Forall has_labels evs.

End Tabs.

(** ** More concrete heaps and models *)

Module MoreExamples.
Import Example.

(** The heap [tied] with its list in ranked order. *)
Definition tied_ranked : State :=
  {| dicts := dicts tied;
     lists := {[ 0%nat := [1; 0; 2]%nat ]};
     trace := [] |}.

(** The exception of a model that cannot be loaded. *)
Definition model_error : Exn :=
  {| exn_class := "OSError"; exn_msg := "model weights not found" |}.

(** A model that raises on every call. *)
Definition encode_down (texts : list PyVal) : Exn + list (list Q) :=
  inl model_error.


End MoreExamples.

(** ** More vocabulary: counting the entries on the page *)

Module Entries.

Definition is_expander (ev : Event) : bool :=
  match ev with
  | StExpander _ => true
  | _ => false
  end.

(** The number of entries (expanders) among the events. *)
Definition expanders (evs : list Event) : nat :=
  length (filter (λ ev, is_expander ev = true) evs).

(** [m] opens at most [n] expanders. *)
Definition opens_at_most {A} (n : nat) (m : M A) : Prop :=
  ∀ s, ∃ evs, trace (m s).2 = trace s ++ evs ∧ (expanders evs ≤ n)%nat.

End Entries.

(** * Properties *)

(** ** The reshaping loop *)

Module FetchFacts.
Import Fetch.

Lemma dict_update_keys k f (d : QueriesDict) : (dict_update k f d).*1 = d.*1.
Proof.
  induction d as [|[k' v] d IH]; simpl; [done|].
  case_decide; simpl; [done|]. f_equal. apply IH.
Qed.

Lemma elem_of_dict_update k f (d : QueriesDict) k' q' :
  NoDup d.*1 →
  (k', q') ∈ dict_update k f d ↔
  (k' ≠ k ∧ (k', q') ∈ d) ∨ (k' = k ∧ ∃ q, (k, q) ∈ d ∧ q' = f q).
Proof.
  induction d as [|[k0 v] d IH]; simpl; intros Hnd.
  { split; [by intros ?%elem_of_nil|].
    intros [[_ ?%elem_of_nil]|[_ (q & ?%elem_of_nil & _)]]; done. }
  apply NoDup_cons in Hnd as [Hk0 Hnd].
  case_decide as Hk; subst.
  - rewrite !elem_of_cons. split.
    + intros [[= -> ->]|Hin].
      * right. split; [done|]. exists v. split; [by left|done].
      * left. split; [|by right]. intros ->. apply Hk0.
        apply list_elem_of_fmap. by exists (k, q').
    + intros [[Hne [[= -> ->]|Hin]]|[-> (q & Hq & ->)]]; [done|by right|].
      apply elem_of_cons in Hq as [[= ->]|Hq]; [by left|].
      exfalso. apply Hk0. apply list_elem_of_fmap. by exists (k, q).
  - rewrite !elem_of_cons, IH by done. split.
    + intros [[= -> ->]|[[Hne Hin]|[-> (q & Hq & ->)]]].
      * left. split; [done|by left].
      * left. split; [done|by right].
      * right. split; [done|]. exists q. split; [by right|done].
    + intros [[Hne [[= -> ->]|Hin]]|[-> (q & Hq & ->)]].
      * by left.
      * right. left. done.
      * apply elem_of_cons in Hq as [[= ->]|Hq]; [done|].
        right. right. split; [done|]. by exists q.
Qed.

Lemma rows_of_snoc k rows r :
  rows_of k (rows ++ [r]) =
  rows_of k rows ++ (if decide (query_id r = k) then [r] else []).
Proof.
  unfold rows_of. by rewrite filter_app.
Qed.

Lemma rows_of_absent k rows : k ∉ query_id <$> rows → rows_of k rows = [].
Proof.
  unfold rows_of. induction rows as [|r rows IH]; [done|].
  rewrite fmap_cons, not_elem_of_cons. intros [Hne Hk].
  rewrite filter_cons. case_decide; [congruence|]. by apply IH.
Qed.

Lemma grouped_nil : grouped [] [].
Proof.
  split; [constructor|]. split; [done|].
  by intros k q ?%elem_of_nil.
Qed.

Lemma grouped_step rows d r :
  grouped rows d → grouped (rows ++ [r]) (loop_body d r).
Proof.
  intros (Hnd & Hkeys & Hval). unfold loop_body, dict_contains, dict_add.
  set (k0 := query_id r).
  set (d' := if bool_decide (k0 ∈ d.*1) then d
             else d ++ [(k0, new_query r)]).
  assert (Hnd' : NoDup d'.*1).
  { subst d'. case_bool_decide as Hin; [done|].
    rewrite fmap_app. apply NoDup_app. split; [done|].
    split; [|apply NoDup_singleton].
    intros k Hk ->%list_elem_of_singleton. done. }
  assert (Hkeys' : ∀ k, k ∈ d'.*1 ↔ k ∈ query_id <$> (rows ++ [r])).
  { intros k. subst d'. rewrite fmap_app, elem_of_app. simpl.
    rewrite list_elem_of_singleton, <- Hkeys.
    case_bool_decide as Hin.
    - split; [by left|]. intros [?| ->]; done.
    - rewrite fmap_app, elem_of_app. simpl.
      by rewrite list_elem_of_singleton. }
  assert (Hval' : ∀ k q, (k, q) ∈ d' →
     q_id q = k ∧ q_similarity q = None ∧
     q_objectives q = objective_of <$> rows_of k rows).
  { intros k q. subst d'. case_bool_decide as Hin.
    - intros Hq. destruct (Hval k q Hq) as (? & ? & ?). done.
    - rewrite elem_of_app, list_elem_of_singleton.
      intros [Hq|[= -> ->]].
      + destruct (Hval k q Hq) as (? & ? & ?). done.
      + simpl. split; [done|]. split; [done|].
        rewrite rows_of_absent; [done|]. by rewrite <- Hkeys. }
  split; [by rewrite dict_update_keys|].
  split; [intros k; by rewrite dict_update_keys|].
  intros k q. rewrite elem_of_dict_update by done.
  rewrite rows_of_snoc. fold k0.
  intros [[Hne Hq]|[-> (q0 & Hq & ->)]].
  - destruct (Hval' k q Hq) as (? & ? & ?).
    case_decide; [congruence|]. by rewrite app_nil_r.
  - destruct (Hval' k0 q0 Hq) as (? & ? & Hobj). simpl.
    case_decide; [|done]. rewrite Hobj, fmap_app. done.
Qed.

Lemma grouped_fold rows : grouped rows (fold_left loop_body rows []).
Proof.
  induction rows as [|r rows IH] using rev_ind; [apply grouped_nil|].
  rewrite fold_left_app. simpl. by apply grouped_step.
Qed.

Lemma reshape_ids rows :
  q_id <$> reshape rows = (fold_left loop_body rows []).*1.
Proof.
  destruct (grouped_fold rows) as (_ & _ & Hval). unfold reshape.
  induction (fold_left loop_body rows []) as [|[k q] d IH]; [done|].
  simpl. f_equal.
  - apply (Hval k q). by left.
  - apply IH. intros k' q' Hin. apply Hval. by right.
Qed.

Lemma reshape_objectives rows :
  Forall (λ q, q_objectives q = objective_of <$> rows_of (q_id q) rows)
         (reshape rows).
Proof.
  destruct (grouped_fold rows) as (_ & _ & Hval).
  apply Forall_forall. intros q Hq. unfold reshape in Hq.
  apply list_elem_of_fmap in Hq as ([k q'] & -> & Hq). simpl.
  destruct (Hval k q' Hq) as (-> & ? & _). done.
Qed.

Lemma reshape_similarity rows :
  Forall (λ q, q_similarity q = None) (reshape rows).
Proof.
  destruct (grouped_fold rows) as (_ & _ & Hval).
  apply Forall_forall. intros q Hq. unfold reshape in Hq.
  apply list_elem_of_fmap in Hq as ([k q'] & -> & Hq). simpl.
  by destruct (Hval k q' Hq) as (_ & _ & ?).
Qed.

Lemma reshape_ids_distinct rows :
  q_id <$> reshape rows ≡ₚ remove_dups (query_id <$> rows).
Proof.
  destruct (grouped_fold rows) as (Hnd & Hkeys & _).
  rewrite reshape_ids. apply NoDup_Permutation.
  - done.
  - apply NoDup_remove_dups.
  - intros k. by rewrite Hkeys, elem_of_remove_dups.
Qed.

(** C1: the reshaping yields exactly one record per distinct query id
    (the ids of the records are the distinct ids of the rows, each once),
    and the objectives of a record are the objectives of the rows that
    bear its id, one per row, in row order and without deduplication, so
    that their number is the number of those rows. *)
Theorem reshape_one_query_per_id (rows : list Row) :
  q_id <$> reshape rows ≡ₚ remove_dups (query_id <$> rows) ∧
  Forall (λ q, q_objectives q = objective_of <$> rows_of (q_id q) rows)
         (reshape rows) ∧
  Forall (λ q, length (q_objectives q) = length (rows_of (q_id q) rows))
         (reshape rows).
Proof.
  split; [apply reshape_ids_distinct|].
  split; [apply reshape_objectives|].
  eapply Forall_impl; [apply reshape_objectives|].
  intros q ->. by rewrite length_fmap.
Qed.

End FetchFacts.

(** ** Which events a computation can add to the trace *)

Module Effects.

Ltac unfold_monad :=
  unfold mbind, M_bind, mret, M_ret, Py.bind, Py.ret, Py.lift, Py.raise,
    Py.emit, Py.try_except, Py.try_finally in *.

Lemma bind_inr {A B} (m : M A) (k : A → M B) s a s1 :
  m s = (inr a, s1) → (m ≫= k) s = k a s1.
Proof. intros Hm. unfold_monad. by rewrite Hm. Qed.

Lemma bind_inl {A B} (m : M A) (k : A → M B) s e s1 :
  m s = (inl e, s1) → (m ≫= k) s = (inl e, s1).
Proof. intros Hm. unfold_monad. by rewrite Hm. Qed.

Section Emits.
Context (P : Event → Prop).

Lemma emits_silent {A} (m : M A) :
  (∀ s, trace (m s).2 = trace s) → emits P m.
Proof. intros H s. exists []. by rewrite H, app_nil_r. Qed.

Lemma emits_ret {A} (a : A) : emits P (mret a).
Proof. by apply emits_silent. Qed.

Lemma emits_lift {A} (r : Exn + A) : emits P (lift r).
Proof. by apply emits_silent. Qed.

Lemma emits_emit ev : P ev → emits P (emit ev).
Proof. intros H s. exists [ev]. split; [done|]. by constructor. Qed.

Lemma emits_bind {A B} (m : M A) (k : A → M B) :
  emits P m → (∀ a, emits P (k a)) → emits P (m ≫= k).
Proof.
  intros Hm Hk s. unfold_monad.
  destruct (Hm s) as (evs1 & Ht1 & HP1).
  destruct (m s) as [[e|a] s1]; simpl in *.
  - by exists evs1.
  - destruct (Hk a s1) as (evs2 & Ht2 & HP2).
    exists (evs1 ++ evs2). rewrite Ht2, Ht1, app_assoc.
    split; [done|]. by apply Forall_app.
Qed.

Lemma emits_try_except {A} (m : M A) (h : Exn → M A) :
  emits P m → (∀ e, emits P (h e)) → emits P (try_except m h).
Proof.
  intros Hm Hk s. unfold_monad.
  destruct (Hm s) as (evs1 & Ht1 & HP1).
  destruct (m s) as [[e|a] s1]; simpl in *.
  - destruct (Hk e s1) as (evs2 & Ht2 & HP2).
    exists (evs1 ++ evs2). rewrite Ht2, Ht1, app_assoc.
    split; [done|]. by apply Forall_app.
  - by exists evs1.
Qed.

Lemma emits_read_dict l : emits P (read_dict l).
Proof.
  apply emits_silent. intros s. unfold read_dict.
  by destruct (dicts s !! l).
Qed.

Lemma emits_read_list l : emits P (read_list l).
Proof.
  apply emits_silent. intros s. unfold read_list.
  by destruct (lists s !! l).
Qed.

Lemma emits_alloc_dict d : emits P (alloc_dict d).
Proof. by apply emits_silent. Qed.

Lemma emits_alloc_list ls : emits P (alloc_list ls).
Proof. by apply emits_silent. Qed.

Lemma emits_store_similarity l x : emits P (store_similarity l x).
Proof.
  apply emits_silent. intros s. unfold store_similarity.
  by destruct (dicts s !! l).
Qed.

Lemma emits_map_m {A B} (f : A → M B) xs :
  (∀ x, emits P (f x)) → emits P (map_m f xs).
Proof.
  intros Hf. induction xs as [|x xs IH]; simpl; [apply emits_ret|].
  apply emits_bind; [done|]. intros y.
  apply emits_bind; [done|]. intros ys. apply emits_ret.
Qed.

Lemma emits_for_enumerate {A} (f : nat → A → M unit) i xs :
  (∀ j x, emits P (f j x)) → emits P (for_enumerate f i xs).
Proof.
  intros Hf. revert i.
  induction xs as [|x xs IH]; intros i; simpl; [apply emits_ret|].
  apply emits_bind; [done|]. intros _. apply IH.
Qed.

Lemma emits_for_each {A} (f : A → M unit) xs :
  (∀ x, emits P (f x)) → emits P (for_each f xs).
Proof.
  intros Hf. induction xs as [|x xs IH]; simpl; [apply emits_ret|].
  apply emits_bind; [done|]. intros _. apply IH.
Qed.
End Emits.

(** Decompose a computation along its binds and loops. *)
Ltac emits_step :=
  first
    [ apply emits_ret | apply emits_lift | apply emits_read_dict
    | apply emits_read_list | apply emits_alloc_dict
    | apply emits_alloc_list | apply emits_store_similarity
    | apply emits_bind; [|intros ?]
    | apply emits_map_m; intros ?
    | apply emits_for_enumerate; intros ? ?
    | apply emits_for_each; intros ?
    | apply emits_try_except; [|intros ?]
    | apply emits_emit ].

End Effects.

(** ** Allocation and [fetch_queries_with_objectives_and_details] *)

Module FetchHeap.
Import Effects App.

(** The state after a run of new dicts has been put on the heap. *)
Lemma map_m_alloc_dict (qs : list Query) (s : State) :
  ∃ refs h,
    map_m alloc_dict qs s =
      (inr refs, {| dicts := h; lists := lists s; trace := trace s |}) ∧
    Forall2 (λ x d, h !! x = Some d) refs qs ∧
    NoDup refs ∧
    (∀ x, x ∈ refs → dicts s !! x = None) ∧
    (∀ x, x ∉ refs → h !! x = dicts s !! x).
Proof.
  revert s. induction qs as [|q qs IH]; intros s.
  { exists [], (dicts s). destruct s. simpl. unfold Py.ret.
    repeat split; [constructor|constructor|by intros ? ?%elem_of_nil]. }
  simpl. unfold_monad. unfold alloc_dict at 1.
  set (l := fresh (dom (dicts s))).
  assert (Hl : dicts s !! l = None).
  { apply not_elem_of_dom. apply is_fresh. }
  set (s1 := {| dicts := <[l:=q]> (dicts s); lists := lists s;
                trace := trace s |}).
  destruct (IH s1) as (refs & h & Hrun & Hlook & Hnd & Hnew & Hold).
  rewrite Hrun. exists (l :: refs), h. simpl in *.
  assert (Hlr : l ∉ refs).
  { intros Hin. specialize (Hnew l Hin). by rewrite lookup_insert_eq in Hnew. }
  split; [done|]. split; [|split; [|split]].
  - constructor; [|done]. rewrite Hold by done. apply lookup_insert_eq.
  - by constructor.
  - intros x [->|Hx]%elem_of_cons; [done|].
    specialize (Hnew x Hx).
    rewrite lookup_insert_ne in Hnew; [done|]. intros <-. done.
  - intros x [Hne Hx]%not_elem_of_cons. rewrite Hold by done.
    by rewrite lookup_insert_ne.
Qed.

Lemma read_back_eq (s : State) l refs qs :
  lists s !! l = Some refs →
  Forall2 (λ x d, dicts s !! x = Some d) refs qs →
  read_back s l = Some qs.
Proof.
  intros Hl Hqs. unfold read_back. rewrite Hl. simpl.
  by apply mapM_Some_2.
Qed.

(** When the session yields its rows, the function returns a new list
    object that refers to new dict objects, one per reshaped record. *)
Lemma fetch_returns (rows : list Row) (s : State) :
  ∃ l refs s',
    fetch_queries_with_objectives_and_details (inr rows) s = (inr l, s') ∧
    lists s' = <[l := refs]> (lists s) ∧
    lists s !! l = None ∧
    Forall2 (λ x d, dicts s' !! x = Some d) refs (Fetch.reshape rows) ∧
    NoDup refs ∧
    (∀ x, x ∈ refs → dicts s !! x = None) ∧
    (∀ x, x ∉ refs → dicts s' !! x = dicts s !! x) ∧
    trace s' = trace s ++ [SessionRun].
Proof.
  unfold fetch_queries_with_objectives_and_details. unfold_monad.
  set (s1 := {| dicts := dicts s; lists := lists s;
                trace := trace s ++ [SessionRun] |}).
  destruct (map_m_alloc_dict (Fetch.reshape rows) s1)
    as (refs & h & Hrun & Hlook & Hnd & Hnew & Hold).
  rewrite Hrun. unfold alloc_list. simpl.
  eexists _, refs, _. split; [done|]. simpl.
  split; [done|]. split; [|done].
  apply not_elem_of_dom. apply is_fresh.
Qed.

(** When the session raises, so does the function, and nothing was put
    on the heap. *)
Lemma fetch_raises (e : Exn) (s : State) :
  fetch_queries_with_objectives_and_details (inl e) s =
    (inl e, {| dicts := dicts s; lists := lists s;
               trace := trace s ++ [SessionRun] |}).
Proof. done. Qed.

Lemma fetch_read_back (rows : list Row) (s : State) :
  ∃ l s',
    fetch_queries_with_objectives_and_details (inr rows) s = (inr l, s') ∧
    read_back s' l = Some (Fetch.reshape rows).
Proof.
  destruct (fetch_returns rows s) as (l & refs & s' & Hrun & Hl & _ & Hd & _).
  exists l, s'. split; [done|].
  eapply read_back_eq; [|done]. rewrite Hl. apply lookup_insert_eq.
Qed.

(** C10: every record of the list that fetch returns has at least one
    objective: a record exists only for an id that some row bears, and
    each such row has appended one objective to it. *)
Theorem fetch_objectives_nonempty (rows : list Row) (s : State) :
  Forall (λ q, 1 ≤ length (q_objectives q))%nat (Fetch.reshape rows) ∧
  ∃ l s',
    fetch_queries_with_objectives_and_details (inr rows) s = (inr l, s') ∧
    read_back s' l = Some (Fetch.reshape rows).
Proof.
  split; [|apply fetch_read_back].
  pose proof (FetchFacts.reshape_ids_distinct rows) as Hids.
  pose proof (FetchFacts.reshape_objectives rows) as Hobj.
  apply Forall_forall. intros q Hq.
  rewrite Forall_forall in Hobj. rewrite (Hobj q Hq), length_fmap.
  assert (Hk : q_id q ∈ query_id <$> rows).
  { apply elem_of_remove_dups. rewrite <- Hids.
    apply list_elem_of_fmap. by exists q. }
  apply list_elem_of_fmap in Hk as (r & Hr & Hin).
  assert (Hrin : r ∈ Fetch.rows_of (q_id q) rows).
  { unfold Fetch.rows_of. by apply list_elem_of_filter. }
  destruct (Fetch.rows_of (q_id q) rows); [by apply elem_of_nil in Hrin|].
  simpl. lia.
Qed.

End FetchHeap.

(** ** The sort *)

Module SortedFacts.
Import Sorted.

Lemma Qltb_lt x y : Qltb x y = true ↔ (x < y)%Q.
Proof.
  unfold Qltb. rewrite negb_true_iff, <- not_true_iff_false, Qle_bool_iff.
  split; [apply Qnot_le_lt|apply Qlt_not_le].
Qed.

Lemma Qltb_ge x y : Qltb x y = false ↔ (y <= x)%Q.
Proof.
  unfold Qltb. rewrite negb_false_iff. apply Qle_bool_iff.
Qed.

Section Sort.
Context {A : Type}.
Implicit Types (x y : Q * A) (l acc : list (Q * A)) (k : Q).

Lemma insort_perm x l : insort x l ≡ₚ x :: l.
Proof.
  induction l as [|y l IH]; simpl; [done|].
  destruct (Qltb x.1 y.1); [done|].
  rewrite IH. apply Permutation_swap.
Qed.

Lemma insort_sorted x l :
  StronglySorted ascending l → StronglySorted ascending (insort x l).
Proof.
  induction 1 as [|y l Hl IH Hy]; simpl.
  { repeat constructor. }
  destruct (Qltb x.1 y.1) eqn:Hlt.
  - apply Qltb_lt in Hlt. constructor; [by constructor|].
    constructor; [by apply Qlt_le_weak|].
    eapply Forall_impl; [exact Hy|]. intros z Hz. unfold ascending in *.
    eapply Qle_trans; [apply Qlt_le_weak, Hlt|done].
  - apply Qltb_ge in Hlt. constructor; [done|].
    rewrite insort_perm. by constructor.
Qed.

Lemma with_key_above k l x :
  StronglySorted ascending l → Forall (λ y, (x.1 < y.1)%Q) l →
  (x.1 == k)%Q → with_key k l = [].
Proof.
  intros _ Hall Hk. unfold with_key.
  induction Hall as [|y l Hy Hall IH]; [done|].
  rewrite filter_cons. case_decide as Hyk; [|done].
  exfalso. rewrite <- Hk in Hyk. rewrite Hyk in Hy.
  by apply Qlt_irrefl in Hy.
Qed.

Lemma with_key_singleton k x :
  with_key k [x] = if decide (x.1 == k)%Q then [x] else [].
Proof. done. Qed.

(** An element goes behind the elements of the same key. *)
Lemma insort_with_key k x l :
  StronglySorted ascending l →
  with_key k (insort x l) = with_key k l ++ with_key k [x].
Proof.
  induction 1 as [|y l Hl IH Hy]; simpl; [done|].
  destruct (Qltb x.1 y.1) eqn:Hlt.
  - apply Qltb_lt in Hlt. unfold with_key at 1.
    rewrite filter_cons. fold (with_key k (y :: l)).
    rewrite with_key_singleton.
    case_decide as Hxk; [|by rewrite app_nil_r].
    rewrite (with_key_above k (y :: l) x); [done| |  |done].
    + by constructor.
    + constructor; [done|].
      eapply Forall_impl; [exact Hy|]. intros z Hz. unfold ascending in *.
      eapply Qlt_le_trans; [exact Hlt|done].
  - unfold with_key at 1 2. rewrite !filter_cons.
    fold (with_key k (insort x l)). fold (with_key k l). rewrite IH.
    by case_decide.
Qed.

Lemma fold_insort_perm l acc :
  fold_left (λ acc x, insort x acc) l acc ≡ₚ acc ++ l.
Proof.
  revert acc. induction l as [|x l IH]; intros acc; simpl.
  { by rewrite app_nil_r. }
  rewrite IH, insort_perm. by rewrite (Permutation_middle acc l x).
Qed.

Lemma fold_insort_sorted l acc :
  StronglySorted ascending acc →
  StronglySorted ascending (fold_left (λ acc x, insort x acc) l acc).
Proof.
  revert acc. induction l as [|x l IH]; intros acc Hacc; simpl; [done|].
  by apply IH, insort_sorted.
Qed.

Lemma fold_insort_with_key k l acc :
  StronglySorted ascending acc →
  with_key k (fold_left (λ acc x, insort x acc) l acc) =
  with_key k acc ++ with_key k l.
Proof.
  revert acc. induction l as [|x l IH]; intros acc Hacc; simpl.
  { by rewrite app_nil_r. }
  rewrite IH by (by apply insort_sorted).
  rewrite insort_with_key by done. rewrite <- app_assoc. f_equal.
  unfold with_key. rewrite (filter_cons _ x l), filter_cons, filter_nil.
  by case_decide.
Qed.

Lemma list_sort_perm l : list_sort l ≡ₚ l.
Proof. unfold list_sort. by rewrite fold_insort_perm. Qed.

Lemma list_sort_sorted l : StronglySorted ascending (list_sort l).
Proof. apply fold_insort_sorted. constructor. Qed.

Lemma list_sort_with_key k l : with_key k (list_sort l) = with_key k l.
Proof.
  unfold list_sort. rewrite fold_insort_with_key; [done|]. constructor.
Qed.

Lemma reverse_sorted l :
  StronglySorted ascending l → StronglySorted descending (reverse l).
Proof.
  induction 1 as [|x l Hl IH Hx]; [constructor|].
  rewrite reverse_cons. apply StronglySorted_app_2; [|done|].
  - intros y z Hy ->%list_elem_of_singleton.
    rewrite Forall_forall in Hx. apply Hx. by apply elem_of_reverse.
  - repeat constructor.
Qed.

Lemma sort_reverse_perm l : sort_reverse l ≡ₚ l.
Proof.
  unfold sort_reverse.
  by rewrite reverse_Permutation, list_sort_perm, reverse_Permutation.
Qed.

Lemma sort_reverse_sorted l : StronglySorted descending (sort_reverse l).
Proof. apply reverse_sorted, list_sort_sorted. Qed.

Lemma sort_reverse_stable k l : with_key k (sort_reverse l) = with_key k l.
Proof.
  unfold sort_reverse, with_key. rewrite filter_reverse.
  fold (with_key k (list_sort (reverse l))). rewrite list_sort_with_key.
  unfold with_key. by rewrite filter_reverse, reverse_involutive.
Qed.
(** The sort of a list by a key function. *)
Section ByKey.
Context (f : A → Q).

Lemma zip_keys (zs : list A) : zip (f <$> zs) zs = keyed f <$> zs.
Proof. induction zs as [|z zs IH]; simpl; [done|]. by f_equal. Qed.

Lemma keyed_sorted l :
  Forall (λ x, x.1 = f x.2) l → StronglySorted descending l →
  StronglySorted (λ z1 z2, (f z2 <= f z1)%Q) l.*2.
Proof.
  intros Hl Hs. induction Hs as [|x l Hs IH Hx]; [constructor|].
  apply Forall_cons in Hl as [Hfx Hl]. simpl.
  constructor; [by apply IH|].
  apply Forall_fmap, Forall_forall. intros y Hy. simpl.
  rewrite Forall_forall in Hx, Hl.
  specialize (Hx y Hy). unfold descending in Hx.
  by rewrite <- Hfx, <- (Hl y Hy).
Qed.

Lemma keyed_with_key k l :
  Forall (λ x, x.1 = f x.2) l →
  (with_key k l).*2 = filter (λ z, (f z == k)%Q) l.*2.
Proof.
  unfold with_key. induction 1 as [|x l Hx Hl IH]; [done|].
  rewrite fmap_cons, !filter_cons, <- Hx.
  case_decide; [|done]. rewrite fmap_cons. by f_equal.
Qed.

Lemma sorted_reverse_by_key (zs : list A) :
  sorted_reverse (f <$> zs) zs ≡ₚ zs ∧
  StronglySorted (λ z1 z2, (f z2 <= f z1)%Q)
                 (sorted_reverse (f <$> zs) zs) ∧
  ∀ k, filter (λ z, (f z == k)%Q) (sorted_reverse (f <$> zs) zs) =
       filter (λ z, (f z == k)%Q) zs.
Proof.
  unfold sorted_reverse. rewrite zip_keys.
  assert (Hsnd : (keyed f <$> zs).*2 = zs).
  { rewrite <- list_fmap_compose. apply list_fmap_id. }
  assert (Hkeyed : Forall (λ x, x.1 = f x.2) (keyed f <$> zs)).
  { apply Forall_fmap, Forall_forall. done. }
  assert (Hall : Forall (λ x, x.1 = f x.2) (sort_reverse (keyed f <$> zs))).
  { by rewrite sort_reverse_perm. }
  split; [|split].
  - by rewrite sort_reverse_perm, Hsnd.
  - apply keyed_sorted; [done|apply sort_reverse_sorted].
  - intros k. rewrite <- keyed_with_key by done.
    rewrite sort_reverse_stable, keyed_with_key by done.
    by rewrite Hsnd.
Qed.
End ByKey.
End Sort.

End SortedFacts.

(** ** [calculate_similarity] on the heap *)

Module RankFacts.
Import Effects App FetchHeap.

Lemma set_similarity_twice k1 k2 d :
  set_similarity k2 (set_similarity k1 d) = set_similarity k2 d.
Proof. done. Qed.

Lemma store_all_snoc h xs x k :
  store_all h (xs ++ [(x, k)]) = alter (set_similarity k) x (store_all h xs).
Proof. unfold store_all. by rewrite foldl_snoc. Qed.

Lemma store_all_cons h xs x k :
  store_all h ((x, k) :: xs) = store_all (alter (set_similarity k) x h) xs.
Proof. done. Qed.

(** A dict that no pair refers to is left as it was. *)
Lemma store_all_frame h xs x :
  x ∉ xs.*1 → store_all h xs !! x = h !! x.
Proof.
  induction xs as [|[y k] xs IH] using rev_ind; [done|].
  rewrite fmap_app, not_elem_of_app. simpl.
  rewrite not_elem_of_cons. intros [Hx [Hne _]].
  rewrite store_all_snoc, lookup_alter_ne by done. by apply IH.
Qed.

(** A dict is only ever changed by storing a similarity in it. *)
Lemma store_all_lookup h xs x d :
  h !! x = Some d →
  store_all h xs !! x = Some d ∨
  ∃ k, (x, k) ∈ xs ∧ store_all h xs !! x = Some (set_similarity k d).
Proof.
  intros Hd. induction xs as [|[y k] xs IH] using rev_ind; [by left|].
  rewrite store_all_snoc. destruct (decide (y = x)) as [->|Hne].
  - right. exists k. split; [apply elem_of_app; right; by left|].
    rewrite lookup_alter_eq.
    destruct IH as [->|(k' & _ & ->)]; [done|].
    simpl. by rewrite set_similarity_twice.
  - rewrite lookup_alter_ne by done.
    destruct IH as [?|(k' & Hin & ?)]; [by left|].
    right. exists k'. split; [|done]. apply elem_of_app. by left.
Qed.

Lemma store_all_lookup_in h xs x d :
  h !! x = Some d → x ∈ xs.*1 →
  ∃ k, (x, k) ∈ xs ∧ store_all h xs !! x = Some (set_similarity k d).
Proof.
  intros Hd. induction xs as [|[y k] xs IH] using rev_ind.
  { by intros ?%elem_of_nil. }
  rewrite store_all_snoc, fmap_app, elem_of_app. simpl.
  rewrite list_elem_of_singleton. intros Hin.
  destruct (decide (y = x)) as [->|Hne].
  - exists k. split; [apply elem_of_app; right; by left|].
    rewrite lookup_alter_eq.
    by destruct (store_all_lookup h xs x d Hd) as [->|(k' & _ & ->)].
  - destruct Hin as [Hin|?]; [|done].
    destruct (IH Hin) as (k' & Hk' & Hlook). exists k'.
    split; [apply elem_of_app; by left|]. by rewrite lookup_alter_ne.
Qed.

(** With distinct references, each dict receives its own score. *)
Lemma store_all_lookup_NoDup h qs sims i x k :
  NoDup qs → qs !! i = Some x → sims !! i = Some k →
  store_all h (zip qs sims) !! x = set_similarity k <$> h !! x.
Proof.
  revert h sims i. induction qs as [|y qs IH]; intros h sims i Hnd Hx Hk.
  { done. }
  apply NoDup_cons in Hnd as [Hy Hnd].
  destruct sims as [|k0 sims]; [done|].
  change (zip (y :: qs) (k0 :: sims)) with ((y, k0) :: zip qs sims).
  rewrite store_all_cons. destruct i as [|i]; simpl in *.
  - injection Hx as ->. injection Hk as ->.
    rewrite store_all_frame, lookup_alter_eq; [done|].
    intros ([x' k'] & -> & Hin)%list_elem_of_fmap.
    by apply elem_of_zip_l in Hin.
  - rewrite (IH _ _ i) by done. rewrite lookup_alter_ne; [done|].
    intros ->. apply Hy. by eapply list_elem_of_lookup_2.
Qed.

Lemma map_m_read {B} (g : Query → Exn + B) s qs ds bs :
  points_to s qs ds → Forall2 (λ d b, g d = inr b) ds bs →
  map_m (λ x, d ← read_dict x; lift (g d)) qs s = (inr bs, s).
Proof.
  intros Hqs. revert bs.
  induction Hqs as [|x d qs ds Hx Hqs IH]; intros bs Hbs.
  { by inversion Hbs. }
  inversion Hbs as [|? b ? bs' Hb Hbs']; subst. simpl.
  unfold_monad. unfold read_dict at 1. rewrite Hx, Hb.
  by rewrite (IH bs').
Qed.






(** The dicts that [qs] refers to after the scores have been stored. *)
Lemma points_to_store_all s qs ds sims :
  points_to s qs ds → (length qs ≤ length sims)%nat →
  ∃ ds',
    Forall2 (λ x d, store_all (dicts s) (zip qs sims) !! x = Some d) qs ds' ∧
    Forall2 (λ d d', ∃ k, d' = set_similarity k d) ds ds'.
Proof.
  intros Hqs Hlen.
  assert (Hin : ∀ x, x ∈ qs → x ∈ (zip qs sims).*1).
  { intros x Hx. by rewrite fst_zip. }
  revert Hin. generalize (zip qs sims) as ps. intros ps. clear Hlen.
  induction Hqs as [|x d qs ds Hx Hqs IH]; intros Hin.
  { exists []. split; constructor. }
  destruct IH as (ds' & Hds' & Hrel).
  { intros y Hy. apply Hin. by right. }
  destruct (store_all_lookup_in (dicts s) ps x d Hx) as (k & _ & Hk).
  { apply Hin. by left. }
  exists (set_similarity k d :: ds'). split; constructor; eauto.
Qed.



End RankFacts.

(** ** [sorted] on the heap *)

Module SortHeap.
Import Effects App.

Lemma read_keys s qs :
  scored s qs →
  map_m (λ x, d ← read_dict x; lift (getitem_similarity d)) qs s =
  (inr (similarity_of s <$> qs), s).
Proof.
  induction 1 as [|x qs [k Hk] Hqs IH]; [done|].
  simpl. unfold_monad. unfold read_dict at 1, similarity_of at 1.
  destruct (dicts s !! x) as [d|]; [|done]. simpl in *.
  unfold getitem_similarity at 1. rewrite Hk. by rewrite IH.
Qed.

(** The list that [calculate_similarity] has scored can be sorted. *)
Lemma scored_store_all s qs ds sims :
  points_to s qs ds → (length qs ≤ length sims)%nat →
  scored {| dicts := store_all (dicts s) (zip qs sims);
            lists := lists s; trace := trace s |} qs.
Proof.
  intros Hqs Hlen.
  destruct (RankFacts.points_to_store_all s qs ds sims Hqs Hlen)
    as (ds' & Hds' & Hrel).
  unfold scored. simpl. clear Hqs Hlen.
  generalize dependent (store_all (dicts s) (zip qs sims)). intros h Hds'.
  revert ds Hrel. induction Hds' as [|x d' qs' ds' Hx _ IH]; intros ds Hrel.
  { constructor. }
  inversion Hrel as [|d ? ? ? [k ->] Hrel']; subst.
  constructor; [|by eapply IH]. rewrite Hx. by exists k.
Qed.

Lemma sorted_by_similarity_run s xs qs :
  lists s !! xs = Some qs →
  scored s qs →
  sorted_by_similarity xs s =
  (inr (fresh (dom (lists s))),
   {| dicts := dicts s;
      lists := <[fresh (dom (lists s)) :=
                   Sorted.sorted_reverse (similarity_of s <$> qs) qs]>
                 (lists s);
      trace := trace s |}).
Proof.
  intros Hxs Hqs. unfold sorted_by_similarity.
  pose proof (read_keys s qs Hqs) as Hkeys.
  unfold_monad. unfold read_list. by rewrite Hxs, Hkeys.
Qed.

(** C2: line 79 makes a new list of the same references, in descending
    order of the stored similarity; references whose similarities are
    equal come in the order they had in the list that was sorted. *)
Theorem sorted_descending_stable (s : State) (xs : nat) (qs : list nat) :
  lists s !! xs = Some qs →
  scored s qs →
  ∃ l out s',
    sorted_by_similarity xs s = (inr l, s') ∧
    lists s !! l = None ∧
    lists s' = <[l := out]> (lists s) ∧
    dicts s' = dicts s ∧
    out ≡ₚ qs ∧
    StronglySorted
      (λ x y, (similarity_of s y <= similarity_of s x)%Q) out ∧
    ∀ k, filter (λ x, (similarity_of s x == k)%Q) out =
         filter (λ x, (similarity_of s x == k)%Q) qs.
Proof.
  intros Hxs Hqs.
  destruct (SortedFacts.sorted_reverse_by_key (similarity_of s) qs)
    as (Hperm & Hsorted & Hstable).
  eexists _, _, _. split; [by apply sorted_by_similarity_run|]. simpl.
  split; [apply not_elem_of_dom, is_fresh|]. done.
Qed.

End SortHeap.

(** ** Rendering *)

Module RenderFacts.
Import Effects App RankFacts.

Lemma emitted_emitted s evs1 evs2 :
  emitted (emitted s evs1) evs2 = emitted s (evs1 ++ evs2).
Proof. unfold emitted. simpl. by rewrite app_assoc. Qed.

Lemma emitted_nil s : emitted s [] = s.
Proof. destruct s. unfold emitted. simpl. by rewrite app_nil_r. Qed.

Lemma emit_run ev s : emit ev s = (inr (), emitted s [ev]).
Proof. done. Qed.

Lemma as_strings_fmap (names : list string) :
  as_strings (PStr <$> names) = names.
Proof.
  unfold as_strings. induction names as [|a names IH]; [done|].
  simpl. by f_equal.
Qed.

Lemma join_items_strings i (names : list string) :
  join_items i (PStr <$> names) = inr names.
Proof.
  revert i. induction names as [|a names IH]; intros i; [done|].
  simpl. by rewrite IH.
Qed.

Lemma join_or_none_strings (names : list string) :
  join_or_none (PStr <$> names) = inr (shown names).
Proof.
  destruct names as [|a names]; [done|].
  unfold join_or_none, str_join. rewrite fmap_cons.
  by rewrite <- fmap_cons, join_items_strings.
Qed.

Lemma join_or_none_shown xs :
  strings_only xs → join_or_none xs = inr (shown (as_strings xs)).
Proof. intros ->. by rewrite join_or_none_strings, as_strings_fmap. Qed.

Lemma render_objective_run idx obj s :
  strings_only (o_traffic_sources obj) → strings_only (o_kpis obj) →
  render_objective idx obj s = (inr (), emitted s (objective_events idx obj)).
Proof.
  intros Hts Hks. unfold render_objective. unfold_monad. simpl.
  rewrite (join_or_none_shown _ Hts), (join_or_none_shown _ Hks).
  unfold emitted, objective_events. simpl. by rewrite <- !app_assoc.
Qed.

Lemma render_tabs_run idx objs s :
  Forall objective_typed objs →
  for_enumerate render_objective idx objs s =
  (inr (), emitted s (tabs_events idx objs)).
Proof.
  intros Hobjs. revert idx s.
  induction Hobjs as [|obj objs (_ & Hts & Hks) _ IH]; intros idx s.
  { by rewrite emitted_nil. }
  simpl. unfold_monad. rewrite render_objective_run by done.
  by rewrite IH, emitted_emitted.
Qed.

(** Streamlit accepts the names of objectives that can be rendered. *)
Lemma tabs_check_typed objs :
  objs ≠ [] → Forall objective_typed objs →
  tabs_check (o_name <$> objs) = inr ().
Proof.
  intros Hne Hobjs. unfold tabs_check.
  assert (Hall : forallb is_str (o_name <$> objs) = true).
  { clear Hne. induction Hobjs as [|obj objs (Hn & _) _ IH]; [done|].
    rewrite fmap_cons. simpl. by rewrite Hn, IH. }
  rewrite Hall. by destruct objs.
Qed.

Lemma render_query_run x d s :
  dicts s !! x = Some d → well_typed d →
  render_query x s = (inr (), emitted s (query_events d)).
Proof.
  intros Hx [Hne Hd]. unfold render_query, st_tabs.
  pose proof (render_tabs_run 0 (q_objectives d)) as Htabs.
  unfold_monad. unfold read_dict. rewrite Hx. simpl.
  rewrite (tabs_check_typed _ Hne Hd).
  rewrite Htabs by done. unfold query_events, emitted. simpl.
  by rewrite <- !app_assoc.
Qed.

Lemma render_queries_run qs ds s :
  points_to s qs ds → Forall well_typed ds →
  for_each render_query qs s =
  (inr (), emitted s (concat (query_events <$> ds))).
Proof.
  intros Hqs. revert s Hqs. revert ds.
  induction qs as [|x qs IH]; intros ds s Hqs Hds.
  { inversion Hqs; subst. by rewrite emitted_nil. }
  inversion Hqs as [|? d ? ds' Hx Hqs']; subst.
  apply Forall_cons in Hds as [Hd Hds]. simpl. unfold_monad.
  rewrite (render_query_run x d) by done.
  rewrite (IH ds'); [by rewrite emitted_emitted|done|done].
Qed.

(** C6: an objective whose traffic sources and KPIs are the names [ts]
    and [ks] is rendered as a tab with two lines; the first shows the
    names of [ts] joined by a comma and a space, or [None] when [ts] is
    empty, and the second shows [ks] in the same way. *)
Theorem render_objective_fields idx id name (ts ks : list string) s :
  render_objective idx
    {| o_id := id; o_name := name;
       o_traffic_sources := PStr <$> ts; o_kpis := PStr <$> ks |} s =
  (inr (),
   emitted s
     [StTab idx;
      StWrite ("**Traffic Sources:** "
               ++ match ts with [] => "None" | _ => String.concat ", " ts end);
      StWrite ("**KPIs:** "
               ++ match ks with [] => "None" | _ => String.concat ", " ks end)]).
Proof.
  rewrite render_objective_run; simpl.
  - unfold objective_events. simpl. by rewrite !as_strings_fmap.
  - unfold strings_only. by rewrite as_strings_fmap.
  - unfold strings_only. by rewrite as_strings_fmap.
Qed.

Lemma tabs_events_no_warning idx objs :
  Forall (λ ev, is_warning ev = false) (tabs_events idx objs).
Proof.
  revert idx. induction objs as [|obj objs IH]; intros idx; simpl.
  { constructor. }
  repeat (constructor; [done|]). apply IH.
Qed.

Lemma query_events_no_warning d :
  Forall (λ ev, is_warning ev = false) (query_events d).
Proof.
  unfold query_events. simpl.
  repeat (constructor; [done|]). apply tabs_events_no_warning.
Qed.

Lemma present_run s l x qs d ds k :
  lists s !! l = Some (x :: qs) →
  points_to s (x :: qs) (d :: ds) →
  q_similarity d = Some k →
  present l s =
  if Sorted.Qltb k threshold then
    emit (StWarning "The input query might not be relevant to marketing.") s
  else
    (emit (StSubheader "Top Similar Queries:");;
     for_each render_query (take 5 (x :: qs))) s.
Proof.
  intros Hl Hqs Hk. unfold present.
  apply Forall2_cons in Hqs as [Hx _].
  unfold_monad. unfold read_list, read_dict. rewrite Hl. simpl.
  unfold getitem_similarity. rewrite Hx, Hk.
  by destruct (Sorted.Qltb k threshold).
Qed.

Lemma render_queries_no_warning qs :
  emits (λ ev, is_warning ev = false) (for_each render_query qs).
Proof.
  unfold render_query, st_tabs, render_objective.
  repeat emits_step; done.
Qed.

(** C4, as the script has it: for a non-empty ranked list whose first
    record has similarity [k]: when [k] is below 0.3 the warning is
    displayed and nothing else; when [k] is at least 0.3 the subheader
    is displayed and no warning is, and, provided that the first five
    records have objectives whose names, traffic sources and KPIs are
    strings, the first five entries, or all of them when there are
    fewer, are rendered in full. *)
Theorem present_threshold s l qs ds top k :
  lists s !! l = Some qs →
  points_to s qs ds →
  head ds = Some top →
  q_similarity top = Some k →
  ((k < 3 # 10)%Q →
     present l s =
     (inr (),
      emitted s
        [StWarning "The input query might not be relevant to marketing."]))
  ∧
  ((3 # 10 <= k)%Q →
     (∃ evs,
        trace (present l s).2 =
          trace s ++ StSubheader "Top Similar Queries:" :: evs ∧
        Forall (λ ev, is_warning ev = false) evs) ∧
     (Forall well_typed (take 5 ds) →
        present l s =
        (inr (),
         emitted s (StSubheader "Top Similar Queries:"
                    :: concat (query_events <$> take 5 ds))) ∧
        length (take 5 ds) = (5 `min` length ds)%nat)).
Proof.
  intros Hl Hqs Hhead Hk.
  destruct ds as [|d ds]; [done|]. injection Hhead as ->.
  destruct qs as [|x qs]; [by inversion Hqs|].
  rewrite (present_run s l x qs top ds k) by done.
  split.
  - intros Hlt. apply SortedFacts.Qltb_lt in Hlt.
    unfold threshold. by rewrite Hlt.
  - intros Hge. apply SortedFacts.Qltb_ge in Hge.
    unfold threshold. rewrite Hge.
    rewrite (bind_inr _ _ _ _ _ (emit_run _ s)).
    split.
    + destruct (render_queries_no_warning (take 5 (x :: qs))
                  (emitted s [StSubheader "Top Similar Queries:"]))
        as (evs & Htrace & Hevs).
      exists evs. split; [|done]. rewrite Htrace. simpl.
      by rewrite <- app_assoc.
    + intros Hds. split; [|apply length_take].
      rewrite (render_queries_run (take 5 (x :: qs)) (take 5 (top :: ds)));
        [by rewrite emitted_emitted| |done].
      by apply Forall2_take.
Qed.

End RenderFacts.

(** ** The request cycle *)

Module CycleFacts.
Import Effects App RankFacts RenderFacts.

Ltac emits_auto :=
  repeat first
    [ emits_step
    | match goal with
      | |- emits _ (match ?x with _ => _ end) => destruct x
      end ];
  try done.

Section Cycle.
Variable store : Exn + list Row.
Variable encode : list PyVal → Exn + list (list Q).
Variable dot : list Q → list Q → Q.

(** Only the [finally] clause closes the driver. *)
Lemma guarded_body_keeps_driver input :
  emits (λ ev, ev ≠ DriverClose)
        (try_except (try_body store encode dot input) handler).
Proof.
  unfold try_body, handler, fetch_queries_with_objectives_and_details,
    calculate_similarity, sorted_by_similarity, present, render_query,
    st_tabs, render_objective, model_encode.
  emits_auto.
Qed.

(** Fetching and scoring put nothing on the page. *)
Lemma fetch_emits_backend :
  emits (λ ev, is_st ev = false)
        (fetch_queries_with_objectives_and_details store).
Proof. unfold fetch_queries_with_objectives_and_details. emits_auto. Qed.

Lemma calculate_similarity_emits_backend l input :
  emits (λ ev, is_st ev = false) (calculate_similarity encode dot l input).
Proof. unfold calculate_similarity, model_encode. emits_auto. Qed.

Lemma page_backend evs : Forall (λ ev, is_st ev = false) evs → page evs = [].
Proof.
  unfold page. induction 1 as [|ev evs Hev _ IH]; [done|].
  rewrite filter_cons. case_decide; [congruence|done].
Qed.

Lemma page_app evs1 evs2 : page (evs1 ++ evs2) = page evs1 ++ page evs2.
Proof. apply filter_app. Qed.

Lemma request_cycle_nonempty input :
  input ≠ "" →
  request_cycle store encode dot input =
  try_finally (try_except (try_body store encode dot input) handler)
              (emit DriverClose).
Proof. by destruct input. Qed.

(** The handler turns an exception of the body into an error message;
    the driver is closed after either outcome. *)
Lemma request_cycle_run input s :
  input ≠ "" →
  request_cycle store encode dot input s =
  match try_body store encode dot input s with
  | (inr _, s1) => (inr (), emitted s1 [DriverClose])
  | (inl e, s1) =>
      (inr (), emitted s1 [StError ("An error occurred: " ++ exn_msg e);
                           DriverClose])
  end.
Proof.
  intros Hne. rewrite request_cycle_nonempty by done.
  unfold try_finally, try_except, handler.
  destruct (try_body store encode dot input s) as [[e|[]] s1]; simpl; [|done].
  unfold emitted. simpl. by rewrite <- app_assoc.
Qed.
(** A call of [calculate_similarity] always reaches the model. *)
Lemma calculate_similarity_calls_model l input s qs ds :
  lists s !! l = Some qs →
  points_to s qs ds →
  ∃ evs, trace (calculate_similarity encode dot l input s).2 =
         trace s ++ ModelEncode (q_query <$> ds) :: evs.
Proof.
  intros Hl Hqs. unfold calculate_similarity.
  erewrite bind_inr; [|by unfold read_list; rewrite Hl].
  erewrite bind_inr.
  2:{ apply (map_m_read (λ d, inr (q_query d)) s qs ds (q_query <$> ds) Hqs).
      clear. induction ds; constructor; done. }
  match goal with
  | |- context [(model_encode encode ?t ≫= ?k) s] =>
      assert (Hrest : ∀ a, emits (λ _, True) (k a));
      [|generalize dependent k; intros rest Hrest]
  end.
  { intros a. unfold model_encode. emits_auto. }
  unfold model_encode. unfold_monad. simpl.
  destruct (encode (q_query <$> ds)) as [e|embs]; simpl.
  { by exists []. }
  destruct (Hrest embs (emitted s [ModelEncode (q_query <$> ds)]))
    as (evs & Htrace & _).
  exists evs. unfold emitted in Htrace. simpl in Htrace.
  by rewrite Htrace, <- app_assoc.
Qed.

(** C8: a request cycle ends normally, and the last thing it does is
    close the driver, which it does not do before: whatever the store
    and the model answer, [driver.close] is called once, at the end. *)
Theorem driver_closed_once_at_end input s :
  input ≠ "" →
  ∃ evs s',
    request_cycle store encode dot input s = (inr (), s') ∧
    trace s' = trace s ++ evs ++ [DriverClose] ∧
    DriverClose ∉ evs.
Proof.
  intros Hne. rewrite request_cycle_nonempty by done.
  destruct (guarded_body_keeps_driver input s) as (evs & Htrace & Hevs).
  unfold try_finally.
  assert (Hres : (try_except (try_body store encode dot input) handler s).1
                 = inr ()).
  { unfold try_except, handler.
    by destruct (try_body store encode dot input s) as [[e|[]] s1]. }
  destruct (try_except (try_body store encode dot input) handler s)
    as [r s1]. simpl in *. subst r.
  eexists evs, _. split; [done|]. simpl.
  split; [by rewrite Htrace, app_assoc|].
  intros Hin. rewrite Forall_forall in Hevs. by apply (Hevs _ Hin).
Qed.

(** C5: when the list that fetch returns is empty, the cycle shows the
    "no queries" message and closes the driver; the model is not
    called and no dict is touched, so [calculate_similarity] has not
    run. *)
Theorem empty_fetch_skips_ranker rows input s :
  store = inr rows →
  Fetch.reshape rows = [] →
  input ≠ "" →
  ∃ s',
    request_cycle store encode dot input s = (inr (), s') ∧
    trace s' = trace s ++ [SessionRun;
                           StWrite "No queries found in the database.";
                           DriverClose] ∧
    dicts s' = dicts s.
Proof.
  intros Hstore Hrows Hne. rewrite request_cycle_run by done.
  rewrite Hstore.
  destruct (FetchHeap.fetch_returns rows s)
    as (l & refs & s0 & Hfetch & Hlists & _ & Hrefs & _ & _ & Hold & Htr).
  rewrite Hrows in Hrefs. inversion Hrefs; subst refs.
  unfold try_body. rewrite (bind_inr _ _ _ _ _ Hfetch).
  erewrite bind_inr;
    [|by unfold read_list; rewrite Hlists, lookup_insert_eq].
  cbv iota. rewrite emit_run. eexists. split; [done|]. simpl.
  split; [by rewrite Htr, <- !app_assoc|].
  apply map_eq. intros x. apply Hold, not_elem_of_nil.
Qed.

(** C7, as the script has it: an exception of the body is caught and
    reported in an error message, which comes after what the body had
    already rendered; when the exception comes from fetching or from
    scoring, nothing had been rendered and the message is all that the
    page shows. *)
Theorem error_follows_rendered_output input s e s1 :
  input ≠ "" →
  try_body store encode dot input s = (inl e, s1) →
  request_cycle store encode dot input s =
    (inr (), emitted s1 [StError ("An error occurred: " ++ exn_msg e);
                         DriverClose]) ∧
  (raised_before_render store encode dot input s = true →
   ∃ evs,
     trace (request_cycle store encode dot input s).2 = trace s ++ evs ∧
     page evs = [StError ("An error occurred: " ++ exn_msg e)]).
Proof.
  intros Hne Hbody. rewrite request_cycle_run, Hbody by done.
  split; [done|]. intros Hpre. simpl.
  cut (∃ evs, trace s1 = trace s ++ evs ∧ page evs = []).
  { intros (evs & -> & Hpage). eexists. rewrite <- app_assoc.
    split; [done|]. by rewrite page_app, Hpage. }
  unfold raised_before_render in Hpre. unfold try_body in Hbody.
  destruct (fetch_emits_backend s) as (evs0 & Htr0 & Hev0).
  destruct (fetch_queries_with_objectives_and_details store s)
    as [[e0|l] s0] eqn:Hfetch; simpl in Htr0.
  { rewrite (bind_inl _ _ _ _ _ Hfetch) in Hbody.
    injection Hbody as -> ->. exists evs0. split; [done|].
    by apply page_backend. }
  rewrite (bind_inr _ _ _ _ _ Hfetch) in Hbody.
  unfold read_list at 1 in Hbody. unfold mbind, M_bind, Py.bind in Hbody.
  destruct (lists s0 !! l) as [[|x qs]|].
  - done.
  - destruct (calculate_similarity_emits_backend l input s0)
      as (evs1 & Htr1 & Hev1).
    destruct (calculate_similarity encode dot l input s0)
      as [[e1|l1] s2]; [|done]. simpl in *.
    injection Hbody as -> ->. exists (evs0 ++ evs1).
    split; [by rewrite Htr1, Htr0, app_assoc|].
    apply page_backend. by apply Forall_app.
  - injection Hbody as _ ->. exists evs0. split; [done|].
    by apply page_backend.
Qed.
End Cycle.

End CycleFacts.

(** ** The statements at concrete inputs *)

Module Witness.
Import App Example.

Example reshape_rows : Fetch.reshape rows = [query_A; query_B].
Proof. reflexivity. Qed.

Example fetched_heap :
  lists fetched !! 0%nat = Some [0; 1]%nat ∧
  dicts fetched !! 0%nat = Some query_A ∧
  dicts fetched !! 1%nat = Some query_B.
Proof. vm_compute. done. Qed.

Example sorted_tied :
  (sorted_by_similarity 0 tied).1 = inr 1%nat ∧
  lists (sorted_by_similarity 0 tied).2 !! 1%nat = Some [1; 0; 2]%nat.
Proof. vm_compute. done. Qed.


(** The sort at the heap [tied]. *)
Lemma sorted_descending_stable_witness :
  ∃ l out s',
    sorted_by_similarity 0 tied = (inr l, s') ∧
    lists tied !! l = None ∧
    lists s' = <[l := out]> (lists tied) ∧
    dicts s' = dicts tied ∧
    out ≡ₚ [0; 1; 2]%nat ∧
    StronglySorted
      (λ x y, (similarity_of tied y <= similarity_of tied x)%Q) out ∧
    ∀ k, filter (λ x, (similarity_of tied x == k)%Q) out =
         filter (λ x, (similarity_of tied x == k)%Q) [0; 1; 2]%nat.
Proof.
  apply (SortHeap.sorted_descending_stable tied 0 [0; 1; 2]%nat).
  - reflexivity.
  - repeat constructor; vm_compute; eexists; reflexivity.
Defined.



(** The scenario of the threshold: a top score of 0.29 and one of 0.30. *)
Lemma present_threshold_witness :
  present 0 (ranked (29 # 100)) =
    (inr (),
     emitted (ranked (29 # 100))
       [StWarning "The input query might not be relevant to marketing."]) ∧
  present 0 (ranked (30 # 100)) =
    (inr (),
     emitted (ranked (30 # 100))
       (StSubheader "Top Similar Queries:"
        :: concat (query_events
                     <$> take 5 [set_similarity (30 # 100) query_A]))).
Proof.
  split.
  - apply (RenderFacts.present_threshold (ranked (29 # 100)) 0 [0%nat]
             [set_similarity (29 # 100) query_A]
             (set_similarity (29 # 100) query_A) (29 # 100)).
    + reflexivity.
    + repeat constructor.
    + reflexivity.
    + reflexivity.
    + reflexivity.
  - apply (RenderFacts.present_threshold (ranked (30 # 100)) 0 [0%nat]
             [set_similarity (30 # 100) query_A]
             (set_similarity (30 # 100) query_A) (30 # 100)).
    + reflexivity.
    + repeat constructor.
    + reflexivity.
    + reflexivity.
    + discriminate.
    + repeat constructor; discriminate.
Defined.

(** C4 as it is stated fails: a ranked list whose only record has
    similarity 0.3 and a number among the names of its traffic sources
    is not rendered; the join of line 96 raises after the subheader, the
    expander and the tabs. *)
Lemma results_not_rendered :
  ¬ (∀ s l qs ds top k,
       lists s !! l = Some qs →
       points_to s qs ds →
       head ds = Some top →
       q_similarity top = Some k →
       presents_as_claimed s l ds k).
Proof.
  intros Hclaim.
  destruct (Hclaim ranked_number 0%nat [0%nat] [query_number] query_number
              (3 # 10) eq_refl) as [_ Hrender].
  - repeat constructor.
  - reflexivity.
  - reflexivity.
  - assert (Hraised : (present 0 ranked_number).1 = inl join_error).
    { vm_compute. reflexivity. }
    rewrite Hrender in Hraised; [discriminate|]. discriminate.
Qed.

(** An empty store. *)
Lemma empty_fetch_skips_ranker_witness :
  ∃ s',
    request_cycle (inr []) encode exact_dot "sales" init = (inr (), s') ∧
    trace s' = trace init ++ [SessionRun;
                              StWrite "No queries found in the database.";
                              DriverClose] ∧
    dicts s' = dicts init.
Proof.
  apply (CycleFacts.empty_fetch_skips_ranker (inr []) encode exact_dot [] "sales" init).
  - reflexivity.
  - reflexivity.
  - discriminate.
Defined.

(** The four ways through a cycle: the list is rendered, the store is
    empty, the warning is shown, the store cannot be reached. *)
Lemma driver_closed_once_at_end_witness :
  (∃ evs s',
     request_cycle (inr rows) encode exact_dot "sales" init = (inr (), s') ∧
     trace s' = trace init ++ evs ++ [DriverClose] ∧ DriverClose ∉ evs) ∧
  (∃ evs s',
     request_cycle (inr []) encode exact_dot "sales" init = (inr (), s') ∧
     trace s' = trace init ++ evs ++ [DriverClose] ∧ DriverClose ∉ evs) ∧
  (∃ evs s',
     request_cycle (inr rows) encode_far exact_dot "sales" init = (inr (), s') ∧
     trace s' = trace init ++ evs ++ [DriverClose] ∧ DriverClose ∉ evs) ∧
  (∃ evs s',
     request_cycle (inl unavailable) encode exact_dot "sales" init = (inr (), s') ∧
     trace s' = trace init ++ evs ++ [DriverClose] ∧ DriverClose ∉ evs).
Proof.
  repeat split.
  - apply (CycleFacts.driver_closed_once_at_end
             (inr rows) encode exact_dot "sales" init). discriminate.
  - apply (CycleFacts.driver_closed_once_at_end
             (inr []) encode exact_dot "sales" init). discriminate.
  - apply (CycleFacts.driver_closed_once_at_end
             (inr rows) encode_far exact_dot "sales" init). discriminate.
  - apply (CycleFacts.driver_closed_once_at_end
             (inl unavailable) encode exact_dot "sales" init). discriminate.
Defined.

(** What the four cycles put in the trace. *)
Example cycle_traces :
  trace (request_cycle (inr rows) encode exact_dot "sales" init).2 =
    [SessionRun; ModelEncode [PStr "A"; PStr "B"];
     ModelEncode [PStr "sales"];
     StSubheader "Top Similar Queries:";
     StExpander "B"; StWrite "**Related Objectives:**";
     StTabs [PStr "Obj1"];
     StTab 0; StWrite "**Traffic Sources:** SEO"; StWrite "**KPIs:** None";
     StExpander "A"; StWrite "**Related Objectives:**";
     StTabs [PStr "Obj1"; PStr "Obj2"];
     StTab 0; StWrite "**Traffic Sources:** None"; StWrite "**KPIs:** None";
     StTab 1; StWrite "**Traffic Sources:** Ads"; StWrite "**KPIs:** CTR";
     DriverClose] ∧
  trace (request_cycle (inr []) encode exact_dot "sales" init).2 =
    [SessionRun; StWrite "No queries found in the database."; DriverClose] ∧
  trace (request_cycle (inr rows) encode_far exact_dot "sales" init).2 =
    [SessionRun; ModelEncode [PStr "A"; PStr "B"];
     ModelEncode [PStr "sales"];
     StWarning "The input query might not be relevant to marketing.";
     DriverClose] ∧
  trace (request_cycle (inl unavailable) encode exact_dot "sales" init).2 =
    [SessionRun;
     StError "An error occurred: Unable to retrieve routing information";
     DriverClose].
Proof. vm_compute. done. Qed.

(** A store that cannot be reached, and a store whose second entry
    cannot be rendered. *)
Lemma error_follows_rendered_output_witness :
  (request_cycle (inl unavailable) encode exact_dot "sales" init =
     (inr (),
      emitted {| dicts := ∅; lists := ∅; trace := [SessionRun] |}
        [error_message unavailable; DriverClose]) ∧
   (raised_before_render (inl unavailable) encode exact_dot "sales" init = true →
    ∃ evs,
      trace (request_cycle (inl unavailable) encode exact_dot "sales" init).2 =
        trace init ++ evs ∧
      page evs = [error_message unavailable])) ∧
  (request_cycle (inr rows_with_number) encode exact_dot "sales" init =
     (inr (),
      emitted (try_body (inr rows_with_number) encode exact_dot "sales" init).2
        [error_message join_error; DriverClose]) ∧
   (raised_before_render (inr rows_with_number) encode exact_dot "sales" init = true →
    ∃ evs,
      trace (request_cycle (inr rows_with_number) encode exact_dot "sales" init).2 =
        trace init ++ evs ∧
      page evs = [error_message join_error])).
Proof.
  split.
  - apply (CycleFacts.error_follows_rendered_output
             (inl unavailable) encode exact_dot "sales" init unavailable
             {| dicts := ∅; lists := ∅; trace := [SessionRun] |}).
    + discriminate.
    + reflexivity.
  - apply (CycleFacts.error_follows_rendered_output
             (inr rows_with_number) encode exact_dot "sales" init join_error
             (try_body (inr rows_with_number) encode exact_dot "sales" init).2).
    + discriminate.
    + vm_compute. reflexivity.
Defined.

(** C7 as it is stated fails: with a number among the names of the
    traffic sources of the entry that is ranked second, the join of
    line 96 raises after the first entry and a part of the second have
    been rendered, and the page shows them above the error message. *)
Lemma partial_results_shown :
  ¬ all_or_nothing (inr rows_with_number) encode exact_dot "sales" init.
Proof.
  intros Hall.
  assert (Hbody :
    try_body (inr rows_with_number) encode exact_dot "sales" init =
    (inl join_error,
     (try_body (inr rows_with_number) encode exact_dot "sales" init).2)).
  { vm_compute. reflexivity. }
  assert (Htrace :
    trace (request_cycle (inr rows_with_number) encode exact_dot "sales" init).2 =
    trace init ++
    [SessionRun; ModelEncode [PStr "A"; PStr "B"];
     ModelEncode [PStr "sales"];
     StSubheader "Top Similar Queries:";
     StExpander "B"; StWrite "**Related Objectives:**";
     StTabs [PStr "Obj1"];
     StTab 0; StWrite "**Traffic Sources:** SEO"; StWrite "**KPIs:** None";
     StExpander "A"; StWrite "**Related Objectives:**";
     StTabs [PStr "Obj1"; PStr "Obj2"];
     StTab 0; StWrite "**Traffic Sources:** None"; StWrite "**KPIs:** None";
     StTab 1;
     error_message join_error;
     DriverClose]).
  { vm_compute. reflexivity. }
  specialize (Hall _ _ _ Hbody Htrace). discriminate Hall.
Qed.

End Witness.

(** ** The shape of the reshaped list *)

Module GroupingFacts.
Import Fetch Grouping FetchFacts.

Lemma elem_of_first_occurrences k ks : k ∈ first_occurrences ks ↔ k ∈ ks.
Proof.
  induction ks as [|k0 ks IH]; simpl; [done|].
  rewrite !elem_of_cons, list_elem_of_filter, IH.
  destruct (decide (k = k0)) as [->|Hne].
  - split; intros _; by left.
  - split.
    + intros [?|[_ ?]]; [done|by right].
    + intros [?|?]; [done|]. right. done.
Qed.

Lemma first_occurrences_snoc ks k :
  first_occurrences (ks ++ [k]) =
  first_occurrences ks ++ (if decide (k ∈ ks) then [] else [k]).
Proof.
  induction ks as [|k0 ks IH]; simpl; [done|].
  rewrite IH, filter_app. f_equal. f_equal.
  destruct (decide (k ∈ ks)) as [Hin|Hin].
  - rewrite decide_True; [done|]. by right.
  - destruct (decide (k = k0)) as [->|Hne].
    + rewrite decide_True by (by left).
      rewrite filter_cons, decide_False; [done|]. by intros ?.
    + rewrite decide_False.
      * by rewrite filter_cons, decide_True.
      * by intros [?|?]%elem_of_cons.
Qed.

Lemma loop_body_keys d r :
  (loop_body d r).*1 =
  d.*1 ++ (if decide (query_id r ∈ d.*1) then [] else [query_id r]).
Proof.
  unfold loop_body, dict_contains, dict_add. rewrite dict_update_keys.
  case_bool_decide.
  - by rewrite decide_True, app_nil_r.
  - by rewrite decide_False, fmap_app.
Qed.

(** The keys of the dict are in the order in which the loop has first
    seen them. *)
Lemma fold_keys rows :
  (fold_left loop_body rows []).*1 = first_occurrences (query_id <$> rows).
Proof.
  induction rows as [|r rows IH] using rev_ind; [done|].
  rewrite fold_left_app. cbn [fold_left]. rewrite loop_body_keys, IH.
  rewrite (fmap_app query_id rows [r]).
  change (query_id <$> [r]) with [query_id r].
  rewrite first_occurrences_snoc. f_equal.
  destruct (decide (query_id r ∈ query_id <$> rows)) as [Hin|Hin].
  - rewrite decide_True; [done|]. by apply elem_of_first_occurrences.
  - rewrite decide_False; [done|]. by rewrite elem_of_first_occurrences.
Qed.

(** The text of a record is the text of the first row that bears its
    id; the rows that follow do not change it. *)
Lemma fold_text rows k q :
  (k, q) ∈ fold_left loop_body rows [] →
  q_query q = from_option query_text PNone (head (rows_of k rows)).
Proof.
  revert k q. induction rows as [|r rows IH] using rev_ind; intros k q.
  { by intros ?%elem_of_nil. }
  rewrite fold_left_app. simpl.
  destruct (grouped_fold rows) as (Hnd & Hkeys & _).
  set (d := fold_left loop_body rows []) in *.
  unfold loop_body, dict_contains, dict_add. rewrite rows_of_snoc.
  case_bool_decide as Hin.
  - rewrite elem_of_dict_update by done.
    intros [[Hne Hq]|[-> (q0 & Hq & ->)]].
    + rewrite decide_False by done. rewrite app_nil_r. by apply IH.
    + simpl. rewrite (IH _ _ Hq). rewrite decide_True by done.
      apply Hkeys in Hin. apply list_elem_of_fmap in Hin as (r0 & Hr0 & Hin).
      assert (Hr : r0 ∈ rows_of (query_id r) rows).
      { unfold rows_of. by apply list_elem_of_filter. }
      by destruct (rows_of (query_id r) rows); [apply elem_of_nil in Hr|].
  - rewrite elem_of_dict_update.
    2:{ rewrite fmap_app. apply NoDup_app. split; [done|].
        split; [|apply NoDup_singleton].
        by intros k' Hk' ->%list_elem_of_singleton. }
    rewrite elem_of_app, list_elem_of_singleton.
    intros [[Hne [Hq|[= ? ?]]]|[-> (q0 & Hq & ->)]].
    + rewrite decide_False by done. rewrite app_nil_r. by apply IH.
    + done.
    + apply elem_of_app in Hq as [Hq|[= ->]%list_elem_of_singleton].
      * exfalso. apply Hin. apply list_elem_of_fmap.
        by exists (query_id r, q0).
      * simpl. rewrite decide_True by done.
        rewrite rows_of_absent; [done|]. by rewrite <- Hkeys.
Qed.

(** X1: the list that the loop builds is the list of the distinct query
    ids in the order of their first rows, each with the text of its
    first row, the objectives of all its rows, and no similarity. *)
Theorem reshape_groups_in_first_seen_order (rows : list Row) :
  reshape rows = group_of rows <$> first_occurrences (query_id <$> rows).
Proof.
  rewrite <- fold_keys. unfold reshape.
  destruct (grouped_fold rows) as (_ & _ & Hval).
  pose proof (fold_text rows) as Htext.
  induction (fold_left loop_body rows []) as [|[k q] d IH]; [done|].
  simpl. f_equal.
  - destruct (Hval k q) as (Hid & Hobj & Hsim); [by left|].
    specialize (Htext k q). unfold group_of. destruct q; simpl in *.
    rewrite Hid, Hobj, Hsim, Htext; [done|by left].
  - apply IH.
    + intros k' q' Hin. apply Hval. by right.
    + intros k' q' Hin. apply Htext. by right.
Qed.

Lemma objective_count_cons q qs :
  objective_count (q :: qs) =
  (length (q_objectives q) + objective_count qs)%nat.
Proof. done. Qed.

Lemma objective_count_app qs1 qs2 :
  objective_count (qs1 ++ qs2) = (objective_count qs1 + objective_count qs2)%nat.
Proof.
  unfold objective_count. induction qs1 as [|q qs1 IH]; [done|].
  rewrite <- app_comm_cons, !fmap_cons. cbn [sum_list sum_list_with].
  rewrite IH. lia.
Qed.

Lemma objective_count_update k o (d : QueriesDict) :
  k ∈ d.*1 →
  objective_count (dict_update k (append_objective o) d).*2 =
  S (objective_count d.*2).
Proof.
  induction d as [|[k' q] d IH]; [by intros ?%elem_of_nil|].
  cbn [dict_update]. rewrite !fmap_cons. cbn [fst snd].
  case_decide as Hk.
  - intros _. rewrite fmap_cons, !objective_count_cons. cbn [snd].
    unfold append_objective. cbn [q_objectives]. rewrite length_app.
    simpl. lia.
  - intros [?|Hin]%elem_of_cons; [congruence|].
    rewrite fmap_cons, !objective_count_cons. cbn [snd].
    rewrite IH by done. lia.
Qed.

Lemma loop_body_count d r :
  objective_count (loop_body d r).*2 = S (objective_count d.*2).
Proof.
  unfold loop_body, dict_contains, dict_add. case_bool_decide as Hin.
  - by apply objective_count_update.
  - rewrite objective_count_update.
    + rewrite fmap_app, objective_count_app.
      change ([(query_id r, new_query r)].*2) with [new_query r].
      rewrite objective_count_cons. simpl. unfold objective_count. simpl.
      lia.
    + rewrite fmap_app, elem_of_app. right. by left.
Qed.

(** X2: no row is lost and none is counted twice: the records hold as
    many objectives, all together, as the store has returned rows. *)
Theorem reshape_keeps_every_row (rows : list Row) :
  objective_count (reshape rows) = length rows.
Proof.
  unfold reshape.
  induction rows as [|r rows IH] using rev_ind; [done|].
  rewrite fold_left_app, length_app. simpl.
  rewrite loop_body_count, IH. lia.
Qed.

Lemma reshape_nonempty (rows : list Row) : rows ≠ [] → reshape rows ≠ [].
Proof.
  intros Hrows Hnil. destruct rows as [|r rows]; [done|].
  destruct (grouped_fold (r :: rows)) as (_ & Hkeys & _).
  assert (Hin : query_id r ∈ (fold_left loop_body (r :: rows) []).*1).
  { apply Hkeys. rewrite fmap_cons. by left. }
  unfold reshape in Hnil.
  destruct (fold_left loop_body (r :: rows) []); [|done].
  by apply elem_of_nil in Hin.
Qed.

(** X3: the list is empty exactly when the store has returned no row. *)
Theorem reshape_empty_iff (rows : list Row) :
  reshape rows = [] ↔ rows = [].
Proof.
  split; [|by intros ->].
  intros Hnil. destruct (decide (rows = [])) as [|Hne]; [done|].
  by apply reshape_nonempty in Hne.
Qed.

End GroupingFacts.

(** ** More on the sort *)

Module SortMore.
Import Sorted SortedFacts App Effects SortHeap RenderFacts CycleFacts.

Section Pairs.
Context {A : Type}.
Implicit Types (x y : Q * A) (l acc : list (Q * A)).

Lemma insort_last x acc :
  Forall (λ y, (y.1 <= x.1)%Q) acc → insort x acc = acc ++ [x].
Proof.
  induction 1 as [|y acc Hy _ IH]; simpl; [done|].
  apply Qltb_ge in Hy. by rewrite Hy, IH.
Qed.

Lemma fold_insort_sorted_input l acc :
  StronglySorted ascending (acc ++ l) →
  fold_left (λ acc x, insort x acc) l acc = acc ++ l.
Proof.
  revert acc. induction l as [|x l IH]; intros acc Hs; simpl.
  { by rewrite app_nil_r. }
  rewrite insort_last.
  - rewrite IH; [by rewrite <- app_assoc|]. by rewrite <- app_assoc.
  - apply Forall_forall. intros y Hy.
    eapply (StronglySorted_app_1_elem_of ascending acc (x :: l)); [done..|].
    by left.
Qed.

Lemma reverse_sorted_descending l :
  StronglySorted descending l → StronglySorted ascending (reverse l).
Proof.
  induction 1 as [|x l Hl IH Hx]; [constructor|].
  rewrite reverse_cons. apply StronglySorted_app_2; [|done|].
  - intros y z Hy ->%list_elem_of_singleton.
    rewrite Forall_forall in Hx. apply Hx. by apply elem_of_reverse.
  - repeat constructor.
Qed.

(** A list that is in descending order already is left as it is. *)
Lemma sort_reverse_sorted_input l :
  StronglySorted descending l → sort_reverse l = l.
Proof.
  intros Hl. unfold sort_reverse, list_sort.
  rewrite fold_insort_sorted_input.
  - simpl. apply reverse_involutive.
  - simpl. by apply reverse_sorted_descending.
Qed.

Lemma sorted_reverse_sorted_input (f : A → Q) (zs : list A) :
  StronglySorted (λ z1 z2, (f z2 <= f z1)%Q) zs →
  sorted_reverse (f <$> zs) zs = zs.
Proof.
  intros Hzs. unfold sorted_reverse. rewrite zip_keys.
  rewrite sort_reverse_sorted_input.
  - rewrite <- list_fmap_compose. apply list_fmap_id.
  - eapply StronglySorted_fmap; [|exact Hzs]. done.
Qed.

(** The first element of the sorted list has the greatest key. *)
Lemma sorted_reverse_head_max (f : A → Q) (zs : list A) (z : A) :
  head (sorted_reverse (f <$> zs) zs) = Some z →
  z ∈ zs ∧ Forall (λ z', (f z' <= f z)%Q) zs.
Proof.
  destruct (sorted_reverse_by_key f zs) as (Hperm & Hsorted & _).
  destruct (sorted_reverse (f <$> zs) zs) as [|z0 out]; [done|].
  intros [= ->]. split.
  - rewrite <- Hperm. by left.
  - rewrite <- Hperm. apply StronglySorted_cons in Hsorted as [Hz _].
    constructor; [apply Qle_refl|done].
Qed.
End Pairs.

(** X4: sorting a list that is already in descending order of the
    stored similarity gives a new list with the same references in the
    same order, so that sorting twice is the same as sorting once. *)
Theorem sorted_by_similarity_of_sorted (s : State) (xs : nat) (qs : list nat) :
  lists s !! xs = Some qs →
  scored s qs →
  StronglySorted (λ x y, (similarity_of s y <= similarity_of s x)%Q) qs →
  ∃ l s',
    sorted_by_similarity xs s = (inr l, s') ∧
    lists s !! l = None ∧
    lists s' = <[l := qs]> (lists s) ∧
    dicts s' = dicts s ∧
    trace s' = trace s.
Proof.
  intros Hxs Hqs Hsorted.
  eexists _, _. split; [by apply sorted_by_similarity_run|]. simpl.
  split; [apply not_elem_of_dom, is_fresh|].
  by rewrite sorted_reverse_sorted_input.
Qed.

Lemma present_head s l x qs d k :
  lists s !! l = Some (x :: qs) →
  dicts s !! x = Some d →
  q_similarity d = Some k →
  present l s =
  if Qltb k threshold then
    emit (StWarning "The input query might not be relevant to marketing.") s
  else
    (emit (StSubheader "Top Similar Queries:");;
     for_each render_query (take 5 (x :: qs))) s.
Proof.
  intros Hl Hx Hk. unfold present.
  unfold_monad. unfold read_list, read_dict. rewrite Hl. simpl.
  unfold getitem_similarity. rewrite Hx, Hk.
  by destruct (Qltb k threshold).
Qed.

Lemma render_emits_no_warning qs :
  emits (λ ev, is_warning ev = false) (for_each render_query qs).
Proof.
  unfold render_query, st_tabs, render_objective. emits_auto.
Qed.

(** X5: the check of line 82 is a check of the greatest score.  When
    every record of a non-empty scored list has a similarity below 0.3,
    sorting and presenting it shows the warning and nothing else; when
    some record has a similarity of at least 0.3, the subheader is shown
    and no warning is. *)
Theorem warning_iff_all_below (s : State) (xs : nat) (qs : list nat) :
  lists s !! xs = Some qs →
  qs ≠ [] →
  scored s qs →
  (Forall (λ x, (similarity_of s x < 3 # 10)%Q) qs →
   ∃ s',
     (sorted_by_similarity xs ≫= present) s = (inr (), s') ∧
     trace s' = trace s ++
       [StWarning "The input query might not be relevant to marketing."]) ∧
  (Exists (λ x, (3 # 10 <= similarity_of s x)%Q) qs →
   ∃ evs,
     trace ((sorted_by_similarity xs ≫= present) s).2 =
       trace s ++ StSubheader "Top Similar Queries:" :: evs ∧
     Forall (λ ev, is_warning ev = false) evs).
Proof.
  intros Hxs Hne Hqs.
  rewrite (bind_inr _ _ _ _ _ (sorted_by_similarity_run s xs qs Hxs Hqs)).
  destruct (sorted_reverse_by_key (similarity_of s) qs) as (Hperm & _ & _).
  pose proof (sorted_reverse_head_max (similarity_of s) qs) as Hmax.
  destruct (sorted_reverse (similarity_of s <$> qs) qs) as [|top out] eqn:Hout.
  { apply Permutation_nil_l in Hperm. done. }
  destruct (Hmax top eq_refl) as [Htop Hall]. clear Hmax.
  unfold scored in Hqs. rewrite Forall_forall in Hqs.
  destruct (Hqs top Htop) as [k Hk].
  destruct (dicts s !! top) as [d|] eqn:Hd; [|done]. simpl in Hk.
  assert (Hscore : similarity_of s top = k).
  { unfold similarity_of. rewrite Hd. simpl. by rewrite Hk. }
  erewrite (present_head _ _ top out d k);
    [|by simpl; rewrite lookup_insert_eq|done|done].
  split.
  - intros Hbelow. rewrite Forall_forall in Hbelow.
    specialize (Hbelow top Htop). rewrite Hscore in Hbelow.
    apply Qltb_lt in Hbelow. unfold threshold. rewrite Hbelow.
    eexists. split; [done|]. done.
  - intros (x & Hx & Hge)%Exists_exists.
    rewrite Forall_forall in Hall. specialize (Hall x Hx).
    rewrite Hscore in Hall.
    assert (Hk3 : Qltb k threshold = false).
    { apply Qltb_ge. unfold threshold. by eapply Qle_trans. }
    rewrite Hk3. rewrite (bind_inr _ _ _ _ _ (emit_run _ _)).
    destruct (render_emits_no_warning (take 5 (top :: out))
                (emitted
                   {| dicts := dicts s;
                      lists := <[fresh (dom (lists s)) := top :: out]> (lists s);
                      trace := trace s |}
                   [StSubheader "Top Similar Queries:"]))
      as (evs & Htrace & Hevs).
    exists evs. split; [|done]. rewrite Htrace. simpl.
    by rewrite <- app_assoc.
Qed.

End SortMore.

(** ** The outcomes of [calculate_similarity] *)

Module ScoringFacts.
Import App Effects RankFacts RenderFacts Scoring.

(** The loop of lines 59-60 on scores of any length, started at [i]. *)
Lemma store_loop_any sims qs i s :
  Forall (λ x, is_Some (dicts s !! x)) qs →
  (i ≤ length sims)%nat →
  for_enumerate
    (λ i query, x ← lift (Np.getitem sims i); store_similarity query x)
    i qs s =
  (if decide (i + length qs ≤ length sims)%nat then inr ()
   else loop_result () (S (length sims)) sims,
   {| dicts := store_all (dicts s) (zip qs (drop i sims));
      lists := lists s; trace := trace s |}).
Proof.
  revert i s. induction qs as [|x qs IH]; intros i s Hqs Hi.
  { simpl. rewrite decide_True by lia. by destruct s. }
  apply Forall_cons in Hqs as [[d Hd] Hqs]. simpl length.
  destruct (decide (i < length sims)%nat) as [Hlt|Hge].
  - destruct (lookup_lt_is_Some_2 sims i) as [k Hk]; [lia|].
    rewrite (drop_S sims k i Hk).
    change (zip (x :: qs) (k :: drop (S i) sims))
      with ((x, k) :: zip qs (drop (S i) sims)).
    rewrite store_all_cons. simpl. unfold_monad.
    unfold Np.getitem, store_similarity at 1. rewrite Hk, Hd.
    rewrite IH; simpl.
    + rewrite (alter_alt _ (dicts s) x), Hd.
      replace (i + S (length qs))%nat with (S i + length qs)%nat by lia.
      done.
    + eapply Forall_impl; [exact Hqs|]. intros y Hy. simpl.
      destruct (decide (x = y)) as [->|Hne].
      * by rewrite lookup_insert_eq.
      * by rewrite lookup_insert_ne.
    + lia.
  - assert (i = length sims) as -> by lia.
    rewrite decide_False by lia. rewrite drop_all.
    simpl. unfold_monad. unfold Np.getitem.
    rewrite (lookup_ge_None_2 sims (length sims)) by lia.
    unfold loop_result. rewrite decide_False by lia.
    by destruct s.
Qed.

(** What [calculate_similarity] does on a list of records, by the
    outcome of lines 56-58. *)
Lemma calculate_similarity_cases encode dot l input s qs ds :
  lists s !! l = Some qs →
  points_to s qs ds →
  calculate_similarity encode dot l input s =
  match scores_of encode dot (q_query <$> ds) input with
  | inl e =>
      (inl e, emitted s (model_calls encode (q_query <$> ds) input))
  | inr sims =>
      (loop_result l (length qs) sims,
       {| dicts := store_all (dicts s) (zip qs sims);
          lists := lists s;
          trace := trace s ++ model_calls encode (q_query <$> ds) input |})
  end.
Proof.
  intros Hl Hqs. unfold calculate_similarity, scores_of, model_calls.
  erewrite bind_inr; [|by unfold read_list; rewrite Hl].
  erewrite bind_inr.
  2:{ apply (map_m_read (λ d, inr (q_query d)) s qs ds (q_query <$> ds) Hqs).
      clear. induction ds; constructor; done. }
  pose proof (store_loop_any) as Hloop.
  unfold model_encode. unfold_monad. simpl.
  destruct (encode (q_query <$> ds)) as [e|embs]; [done|]. simpl.
  destruct (encode [PStr input]) as [e|inp]; simpl.
  { unfold emitted. simpl. by rewrite <- app_assoc. }
  destruct (Np.dot_T_flatten dot embs inp) as [e|sims]; simpl.
  { unfold emitted. simpl. by rewrite <- app_assoc. }
  rewrite Hloop; simpl.
  - rewrite drop_0, <- app_assoc. unfold loop_result.
    destruct (decide (length qs ≤ length sims)%nat).
    + done.
    + rewrite decide_False by lia. done.
  - eapply Forall2_Forall_l; [exact Hqs|].
    apply Forall_forall. intros d _ x Hx. by exists d.
  - lia.
Qed.


End ScoringFacts.

(** ** Rendering an objective whose names are not all strings *)

Module JoiningFacts.
Import App Effects RenderFacts Joining.

Lemma join_items_not_str i (names : list string) v rest :
  not_str v →
  join_items i ((PStr <$> names) ++ v :: rest) =
  inl (join_type_error (i + length names) v).
Proof.
  intros Hv. revert i. induction names as [|a names IH]; intros i; simpl.
  - rewrite Nat.add_0_r. by destruct v.
  - rewrite IH. by replace (S i + length names)%nat
      with (i + S (length names))%nat by lia.
Qed.

Lemma join_or_none_not_str (names : list string) v rest :
  not_str v →
  join_or_none ((PStr <$> names) ++ v :: rest) =
  inl (join_type_error (length names) v).
Proof.
  intros Hv. unfold join_or_none, str_join.
  rewrite (join_items_not_str 0 names v rest Hv).
  by destruct names.
Qed.

(** X7: the join of line 96 or 97 raises at the first name that is not
    a string, and names it by its index and type.  What the tab shows
    then depends on the line: for a traffic source, the tab stays
    empty; for a KPI, the line of the traffic sources is there and the
    line of the KPIs is not. *)
Theorem render_objective_not_str idx id name s
    (names ts : list string) (v : PyVal) (rest other : list PyVal) :
  not_str v →
  render_objective idx
    {| o_id := id; o_name := name;
       o_traffic_sources := (PStr <$> names) ++ v :: rest;
       o_kpis := other |} s =
  (inl (join_type_error (length names) v), emitted s [StTab idx]) ∧
  render_objective idx
    {| o_id := id; o_name := name;
       o_traffic_sources := PStr <$> ts;
       o_kpis := (PStr <$> names) ++ v :: rest |} s =
  (inl (join_type_error (length names) v),
   emitted s [StTab idx; StWrite ("**Traffic Sources:** " ++ shown ts)]).
Proof.
  intros Hv. unfold render_objective. unfold_monad. simpl.
  rewrite (join_or_none_not_str names v rest Hv).
  split; [done|].
  rewrite join_or_none_strings. unfold emitted. simpl.
  by rewrite <- app_assoc.
Qed.

End JoiningFacts.

(** ** More on the request cycle *)

Module CycleMore.
Import App Effects FetchHeap RankFacts RenderFacts CycleFacts Scoring
  ScoringFacts GroupingFacts.

(** X8: the driver is closed exactly when the input is not empty.  On
    an empty input the script does nothing at all: no query is run,
    nothing is rendered, and the driver stays open. *)
Theorem driver_closed_iff_input store encode dot input s :
  ∃ evs,
    trace (request_cycle store encode dot input s).2 = trace s ++ evs ∧
    (DriverClose ∈ evs ↔ input ≠ "") ∧
    (input = "" → request_cycle store encode dot input s = (inr (), s)).
Proof.
  destruct (decide (input = "")) as [->|Hne].
  - exists []. split; [by rewrite app_nil_r|].
    split; [|done]. split; [by intros ?%elem_of_nil|done].
  - rewrite request_cycle_nonempty by done.
    destruct (guarded_body_keeps_driver store encode dot input s)
      as (evs & Htrace & _).
    unfold try_finally.
    destruct (try_except (try_body store encode dot input) handler s)
      as [r s1]. simpl in *.
    exists (evs ++ [DriverClose]). split; [by rewrite Htrace, app_assoc|].
    split; [|done]. split; [done|]. intros _.
    apply elem_of_app. right. by left.
Qed.

(** The body of the [try] up to the scores. *)
Lemma try_body_scoring rows encode dot input s :
  rows ≠ [] →
  ∃ l refs s0,
    fetch_queries_with_objectives_and_details (inr rows) s = (inr l, s0) ∧
    lists s0 !! l = Some refs ∧
    points_to s0 refs (Fetch.reshape rows) ∧
    NoDup refs ∧
    trace s0 = trace s ++ [SessionRun] ∧
    try_body (inr rows) encode dot input s =
    (similar_queries ← calculate_similarity encode dot l input;
     similar_queries ← sorted_by_similarity similar_queries;
     present similar_queries) s0.
Proof.
  intros Hrows.
  destruct (fetch_returns rows s)
    as (l & refs & s0 & Hfetch & Hlists & _ & Hrefs & Hnd & _ & _ & Htr).
  exists l, refs, s0.
  assert (Hl : lists s0 !! l = Some refs).
  { rewrite Hlists. apply lookup_insert_eq. }
  repeat (split; [done|]).
  unfold try_body. rewrite (bind_inr _ _ _ _ _ Hfetch).
  erewrite bind_inr; [|by unfold read_list; rewrite Hl].
  destruct refs as [|x refs]; [|done].
  apply Forall2_nil_inv_l in Hrefs. by apply reshape_nonempty in Hrows.
Qed.

(** X9: when the store has rows and the model or the product raises,
    the cycle runs the query, calls the model, shows the error message
    with the text of the exception and closes the driver; nothing else
    is put on the page. *)
Theorem cycle_when_scoring_fails rows encode dot input s e :
  rows ≠ [] →
  input ≠ "" →
  scores_of encode dot (q_query <$> Fetch.reshape rows) input = inl e →
  ∃ s',
    request_cycle (inr rows) encode dot input s = (inr (), s') ∧
    trace s' =
      trace s ++ SessionRun
        :: model_calls encode (q_query <$> Fetch.reshape rows) input
        ++ [error_message e; DriverClose].
Proof.
  intros Hrows Hne Hscores. rewrite request_cycle_run by done.
  destruct (try_body_scoring rows encode dot input s Hrows)
    as (l & refs & s0 & _ & Hl & Hrefs & _ & Htr & ->).
  erewrite bind_inl.
  2:{ rewrite (calculate_similarity_cases encode dot l input s0 refs
                 (Fetch.reshape rows) Hl Hrefs), Hscores. done. }
  eexists. split; [done|]. simpl. rewrite Htr.
  by rewrite <- !app_assoc.
Qed.

End CycleMore.

(** ** What a cycle puts on the page *)

Module OutcomeFacts.
Import Sorted SortedFacts App Effects FetchHeap RankFacts SortHeap
  RenderFacts CycleFacts Scoring ScoringFacts CycleMore Outcome.

Section Related.
Context {A B : Type} (R : A → B → Prop).

Lemma insort_related x y l1 l2 :
  related R x y → Forall2 (related R) l1 l2 →
  Forall2 (related R) (insort x l1) (insort y l2).
Proof.
  intros Hxy. induction 1 as [|x' y' l1 l2 Hxy' Hl IH]; simpl.
  { constructor; [done|constructor]. }
  rewrite <- (proj1 Hxy), <- (proj1 Hxy').
  destruct (Qltb x.1 x'.1).
  - constructor; [done|]. by constructor.
  - by constructor.
Qed.

Lemma fold_insort_related l1 l2 acc1 acc2 :
  Forall2 (related R) l1 l2 → Forall2 (related R) acc1 acc2 →
  Forall2 (related R) (fold_left (λ acc x, insort x acc) l1 acc1)
                      (fold_left (λ acc x, insort x acc) l2 acc2).
Proof.
  intros Hl. revert acc1 acc2.
  induction Hl as [|x y l1 l2 Hxy Hl IH]; intros acc1 acc2 Hacc; [done|].
  simpl. apply IH. by apply insort_related.
Qed.

Lemma sort_reverse_related l1 l2 :
  Forall2 (related R) l1 l2 →
  Forall2 (related R) (sort_reverse l1) (sort_reverse l2).
Proof.
  intros Hl. unfold sort_reverse, list_sort.
  apply Forall2_reverse, fold_insort_related; [|constructor].
  by apply Forall2_reverse.
Qed.

Lemma zip_related keys xs ys :
  Forall2 R xs ys → Forall2 (related R) (zip keys xs) (zip keys ys).
Proof.
  intros Hxs. revert keys.
  induction Hxs as [|x y xs ys Hxy Hxs IH]; intros [|k keys]; simpl;
    try constructor; [done|apply IH].
Qed.

(** The sort moves related payloads in the same way. *)
Lemma sorted_reverse_related keys xs ys :
  Forall2 R xs ys →
  Forall2 R (sorted_reverse keys xs) (sorted_reverse keys ys).
Proof.
  intros Hxs. unfold sorted_reverse. apply Forall2_fmap.
  eapply Forall2_impl; [apply sort_reverse_related, zip_related, Hxs|].
  by intros p q [_ ?].
Qed.
End Related.

Lemma sorted_reverse_perm {A} (keys : list Q) (xs : list A) :
  (length xs ≤ length keys)%nat → sorted_reverse keys xs ≡ₚ xs.
Proof.
  intros Hlen. unfold sorted_reverse.
  by rewrite sort_reverse_perm, snd_zip.
Qed.

Lemma well_typed_set_similarity k d :
  well_typed d → well_typed (set_similarity k d).
Proof. done. Qed.

Lemma scored_records_well_typed sims recs :
  Forall well_typed recs → Forall well_typed (scored_records sims recs).
Proof.
  intros Hrecs. revert sims.
  induction Hrecs as [|d recs Hd _ IH]; intros [|k sims]; simpl;
    try constructor; [done|apply IH].
Qed.

Lemma scored_records_scored sims recs :
  Forall (λ d, is_Some (q_similarity d)) (scored_records sims recs).
Proof.
  unfold scored_records. revert recs.
  induction sims as [|k sims IH]; intros [|d recs]; simpl;
    constructor; [by eexists|apply IH].
Qed.

(** The records that the references point to once the scores are
    stored, when the references are distinct. *)
Lemma points_to_scored s refs recs sims :
  points_to s refs recs → NoDup refs → length sims = length recs →
  points_to {| dicts := store_all (dicts s) (zip refs sims);
               lists := lists s; trace := trace s |}
            refs (scored_records sims recs).
Proof.
  intros Hrefs Hnd Hlen.
  pose proof (Forall2_length _ _ _ Hrefs) as Hlen'.
  apply Forall2_same_length_lookup_2.
  { unfold scored_records. rewrite length_zip_with. lia. }
  intros i x d' Hx Hd'. simpl.
  apply lookup_zip_with_Some in Hd' as (k & d & -> & Hk & Hd).
  rewrite (store_all_lookup_NoDup _ refs sims i x k) by done.
  by rewrite (Forall2_lookup_lr _ _ _ _ _ _ Hrefs Hx Hd).
Qed.

Lemma similarity_of_scored s refs recs sims :
  points_to s refs (scored_records sims recs) →
  length sims = length recs →
  similarity_of s <$> refs = sims ∧ scored s refs.
Proof.
  intros Hrefs Hlen.
  assert (Hall : Forall2 (λ x k, dicts s !! x ≫= q_similarity = Some k)
                         refs sims).
  { apply Forall2_same_length_lookup_2.
    { rewrite (Forall2_length _ _ _ Hrefs). unfold scored_records.
      rewrite length_zip_with. lia. }
    intros i x k Hx Hk.
    destruct (lookup_lt_is_Some_2 recs i) as [d Hd].
    { rewrite <- Hlen. by eapply lookup_lt_Some. }
    assert (Hd' : scored_records sims recs !! i = Some (set_similarity k d)).
    { apply lookup_zip_with_Some. by exists k, d. }
    by rewrite (Forall2_lookup_lr _ _ _ _ _ _ Hrefs Hx Hd'). }
  split.
  - apply list_eq_Forall2, Forall2_fmap_l.
    eapply Forall2_impl; [exact Hall|]. intros x k Hk. simpl.
    unfold similarity_of. by rewrite Hk.
  - eapply Forall2_Forall_l; [exact Hall|].
    apply Forall_forall. intros k _ x Hx. by exists k.
Qed.

End OutcomeFacts.

(** ** [st.tabs] always gets a label *)

Module TabsFacts.
Import App Effects FetchFacts Tabs.

Lemma tidy_silent {A} (m : M A) :
  (∀ s, dicts (m s).2 = dicts s ∧ trace (m s).2 = trace s) → tidy m.
Proof.
  intros Hm s Hs. destruct (Hm s) as [Hd Ht]. split.
  - unfold objectives_nonempty. by rewrite Hd.
  - exists []. by rewrite Ht, app_nil_r.
Qed.

Lemma tidy_ret {A} (a : A) : tidy (mret a).
Proof. by apply tidy_silent. Qed.

Lemma tidy_lift {A} (r : Exn + A) : tidy (lift r).
Proof. by apply tidy_silent. Qed.

Lemma tidy_read_list l : tidy (read_list l).
Proof.
  apply tidy_silent. intros s. unfold read_list. by destruct (lists s !! l).
Qed.

Lemma tidy_alloc_list ls : tidy (alloc_list ls).
Proof. by apply tidy_silent. Qed.

Lemma tidy_emit ev : has_labels ev → tidy (emit ev).
Proof.
  intros Hev s Hs. split; [done|]. exists [ev]. split; [done|].
  by constructor.
Qed.

Lemma tidy_bind {A B} (m : M A) (k : A → M B) :
  tidy m → (∀ a, tidy (k a)) → tidy (m ≫= k).
Proof.
  intros Hm Hk s Hs. unfold_monad.
  destruct (Hm s Hs) as (Hs1 & evs1 & Ht1 & HP1).
  destruct (m s) as [[e|a] s1]; simpl in *.
  - split; [done|]. by exists evs1.
  - destruct (Hk a s1 Hs1) as (Hs2 & evs2 & Ht2 & HP2).
    split; [done|]. exists (evs1 ++ evs2).
    rewrite Ht2, Ht1, app_assoc. split; [done|]. by apply Forall_app.
Qed.

Lemma tidy_try_except {A} (m : M A) (h : Exn → M A) :
  tidy m → (∀ e, tidy (h e)) → tidy (try_except m h).
Proof.
  intros Hm Hh s Hs. unfold_monad.
  destruct (Hm s Hs) as (Hs1 & evs1 & Ht1 & HP1).
  destruct (m s) as [[e|a] s1]; simpl in *.
  - destruct (Hh e s1 Hs1) as (Hs2 & evs2 & Ht2 & HP2).
    split; [done|]. exists (evs1 ++ evs2).
    rewrite Ht2, Ht1, app_assoc. split; [done|]. by apply Forall_app.
  - split; [done|]. by exists evs1.
Qed.

(** What is read from the heap has objectives. *)
Lemma tidy_read_dict {B} x (k : Query → M B) :
  (∀ d, q_objectives d ≠ [] → tidy (k d)) → tidy (read_dict x ≫= k).
Proof.
  intros Hk s Hs. unfold_monad. unfold read_dict.
  destruct (dicts s !! x) as [d|] eqn:Hd.
  - apply Hk; [|done]. by apply (map_Forall_lookup_1 _ _ _ _ Hs Hd).
  - split; [done|]. exists []. by rewrite app_nil_r.
Qed.

Lemma tidy_alloc_dict d : q_objectives d ≠ [] → tidy (alloc_dict d).
Proof.
  intros Hd s Hs. split.
  - by apply map_Forall_insert_2.
  - exists []. simpl. by rewrite app_nil_r.
Qed.

Lemma tidy_store_similarity x k : tidy (store_similarity x k).
Proof.
  intros s Hs. unfold store_similarity.
  destruct (dicts s !! x) as [d|] eqn:Hd; simpl.
  - split; [|exists []; by rewrite app_nil_r].
    apply map_Forall_insert_2; [|done]. simpl.
    by apply (map_Forall_lookup_1 _ _ _ _ Hs Hd).
  - split; [done|]. exists []. by rewrite app_nil_r.
Qed.

Lemma tidy_map_m {A B} (P : A → Prop) (f : A → M B) xs :
  Forall P xs → (∀ x, P x → tidy (f x)) → tidy (map_m f xs).
Proof.
  intros Hxs Hf. induction Hxs as [|x xs Hx _ IH]; simpl; [apply tidy_ret|].
  apply tidy_bind; [by apply Hf|]. intros y.
  apply tidy_bind; [done|]. intros ys. apply tidy_ret.
Qed.

Lemma tidy_for_enumerate {A} (P : A → Prop) (f : nat → A → M unit) i xs :
  Forall P xs → (∀ j x, P x → tidy (f j x)) → tidy (for_enumerate f i xs).
Proof.
  intros Hxs Hf. revert i.
  induction Hxs as [|x xs Hx _ IH]; intros i; simpl; [apply tidy_ret|].
  apply tidy_bind; [by apply Hf|]. intros _. apply IH.
Qed.

Lemma tidy_for_each {A} (f : A → M unit) xs :
  (∀ x, tidy (f x)) → tidy (for_each f xs).
Proof.
  intros Hf. induction xs as [|x xs IH]; simpl; [apply tidy_ret|].
  apply tidy_bind; [done|]. intros _. apply IH.
Qed.

Lemma Forall_True {A} (xs : list A) : Forall (λ _, True) xs.
Proof. by apply Forall_forall. Qed.

(** Every record of the reshaped list has an objective. *)
Lemma reshape_objectives_nonempty rows :
  Forall (λ q, q_objectives q ≠ []) (Fetch.reshape rows).
Proof.
  pose proof (reshape_ids_distinct rows) as Hids.
  pose proof (reshape_objectives rows) as Hobj.
  apply Forall_forall. intros q Hq.
  rewrite Forall_forall in Hobj. rewrite (Hobj q Hq).
  assert (Hk : q_id q ∈ query_id <$> rows).
  { apply elem_of_remove_dups. rewrite <- Hids.
    apply list_elem_of_fmap. by exists q. }
  apply list_elem_of_fmap in Hk as (r & Hr & Hin).
  assert (Hrin : r ∈ Fetch.rows_of (q_id q) rows).
  { unfold Fetch.rows_of. by apply list_elem_of_filter. }
  destruct (Fetch.rows_of (q_id q) rows); [by apply elem_of_nil in Hrin|].
  done.
Qed.

Ltac tidy_step :=
  first
    [ apply tidy_ret | apply tidy_lift | apply tidy_read_list
    | apply tidy_alloc_list | apply tidy_store_similarity
    | apply tidy_read_dict; intros ? ?
    | apply tidy_bind; [|intros ?]
    | apply tidy_try_except; [|intros ?]
    | apply tidy_for_each; intros ?
    | apply (tidy_for_enumerate (λ _, True)); [apply Forall_True|intros ? ? _]
    | apply (tidy_map_m (λ _, True)); [apply Forall_True|intros ? _]
    | apply tidy_emit
    | match goal with
      | |- tidy (match ?x with _ => _ end) => destruct x
      end ].

Section Cycle.
Variable store : Exn + list Row.
Variable encode : list PyVal → Exn + list (list Q).
Variable dot : list Q → list Q → Q.

Lemma tidy_fetch : tidy (fetch_queries_with_objectives_and_details store).
Proof.
  unfold fetch_queries_with_objectives_and_details.
  apply tidy_bind; [by apply tidy_emit|]. intros _.
  apply tidy_bind; [apply tidy_lift|]. intros rows.
  apply tidy_bind; [|intros refs; apply tidy_alloc_list].
  apply (tidy_map_m (λ q, q_objectives q ≠ [])).
  - apply reshape_objectives_nonempty.
  - intros q Hq. by apply tidy_alloc_dict.
Qed.

Lemma tidy_render_query x : tidy (render_query x).
Proof.
  unfold render_query, st_tabs, render_objective.
  apply tidy_read_dict. intros d Hd.
  apply tidy_bind; [by apply tidy_emit|]. intros _.
  apply tidy_bind; [by apply tidy_emit|]. intros _.
  apply tidy_bind.
  { apply tidy_bind; [|intros _; apply tidy_lift].
    apply tidy_emit. simpl. by destruct (q_objectives d). }
  intros _. repeat tidy_step; done.
Qed.

Lemma tidy_guarded_body input :
  tidy (try_except (try_body store encode dot input) handler).
Proof.
  unfold try_body, handler.
  apply tidy_try_except; [|intros e; by apply tidy_emit].
  apply tidy_bind; [apply tidy_fetch|]. intros queries.
  apply tidy_bind; [apply tidy_read_list|]. intros [|x qs].
  { by apply tidy_emit. }
  unfold calculate_similarity, sorted_by_similarity, present, model_encode.
  repeat first [ apply tidy_for_each; intros ?; apply tidy_render_query
               | tidy_step ]; done.
Qed.

(** X11: in a cycle that starts from a heap whose records all have
    objectives (the empty heap of a new run is one), [st.tabs] is never
    called without a label: every record that is rendered has come from
    the reshaping loop, which gives each record an objective. *)
Theorem tabs_always_have_labels input s :
  objectives_nonempty s →
  ∃ evs,
    trace (request_cycle store encode dot input s).2 = trace s ++ evs ∧
    Forall has_labels evs ∧
    objectives_nonempty (request_cycle store encode dot input s).2.
Proof.
  intros Hs. destruct (decide (input = "")) as [->|Hne].
  { exists []. split; [by rewrite app_nil_r|]. split; [constructor|done]. }
  rewrite CycleFacts.request_cycle_nonempty by done.
  destruct (tidy_guarded_body input s Hs) as (Hs1 & evs & Htrace & Hevs).
  unfold try_finally.
  destruct (try_except (try_body store encode dot input) handler s)
    as [r s1]. simpl in *.
  exists (evs ++ [DriverClose]). split; [by rewrite Htrace, app_assoc|].
  split; [|done]. apply Forall_app. split; [done|]. by constructor.
Qed.
End Cycle.

End TabsFacts.

(** ** The further statements at concrete inputs *)

Module MoreWitness.
Import App Example MoreExamples Scoring Joining Outcome Tabs.

Example first_occurrences_example :
  Grouping.first_occurrences [PStr "b"; PStr "a"; PStr "b"; PInt 1; PStr "a"]
  = [PStr "b"; PStr "a"; PInt 1].
Proof. reflexivity. Qed.

(** Sorting the ranked list of [tied_ranked] again. *)
Lemma sorted_by_similarity_of_sorted_witness :
  ∃ l s',
    sorted_by_similarity 0 tied_ranked = (inr l, s') ∧
    lists tied_ranked !! l = None ∧
    lists s' = <[l := [1; 0; 2]%nat]> (lists tied_ranked) ∧
    dicts s' = dicts tied_ranked ∧
    trace s' = trace tied_ranked.
Proof.
  apply (SortMore.sorted_by_similarity_of_sorted tied_ranked 0 [1; 0; 2]%nat).
  - reflexivity.
  - repeat constructor; vm_compute; eexists; reflexivity.
  - repeat constructor; vm_compute; discriminate.
Defined.

(** One record of similarity 0.29, and the three records of [tied]. *)
Lemma warning_iff_all_below_witness :
  (∃ s',
     (sorted_by_similarity 0 ≫= present) (ranked (29 # 100)) = (inr (), s') ∧
     trace s' = trace (ranked (29 # 100)) ++
       [StWarning "The input query might not be relevant to marketing."]) ∧
  (∃ evs,
     trace ((sorted_by_similarity 0 ≫= present) tied).2 =
       trace tied ++ StSubheader "Top Similar Queries:" :: evs ∧
     Forall (λ ev, is_warning ev = false) evs).
Proof.
  split.
  - apply (proj1 (SortMore.warning_iff_all_below
                    (ranked (29 # 100)) 0 [0%nat]
                    eq_refl ltac:(discriminate)
                    ltac:(repeat constructor; vm_compute; eexists;
                          reflexivity))).
    repeat constructor.
  - apply (proj2 (SortMore.warning_iff_all_below
                    tied 0 [0; 1; 2]%nat
                    eq_refl ltac:(discriminate)
                    ltac:(repeat constructor; vm_compute; eexists;
                          reflexivity))).
    apply Exists_cons_hd. vm_compute. discriminate.
Defined.


(** The number 7 after one name. *)
Lemma render_objective_not_str_witness :
  render_objective 1
    {| o_id := PStr "o2"; o_name := PStr "Obj2";
       o_traffic_sources := (PStr <$> ["Ads"]) ++ PInt 7 :: [];
       o_kpis := [PStr "CTR"] |} init =
  (inl (join_type_error 1 (PInt 7)), emitted init [StTab 1]) ∧
  render_objective 1
    {| o_id := PStr "o2"; o_name := PStr "Obj2";
       o_traffic_sources := PStr <$> ["SEO"];
       o_kpis := (PStr <$> ["Ads"]) ++ PInt 7 :: [] |} init =
  (inl (join_type_error 1 (PInt 7)),
   emitted init [StTab 1; StWrite ("**Traffic Sources:** " ++ shown ["SEO"])]).
Proof.
  apply (JoiningFacts.render_objective_not_str 1 (PStr "o2") (PStr "Obj2")
           init ["Ads"] ["SEO"] (PInt 7) [] [PStr "CTR"]).
  exact I.
Defined.

(** A model that is down. *)
Lemma cycle_when_scoring_fails_witness :
  ∃ s',
    request_cycle (inr rows) encode_down exact_dot "sales" init = (inr (), s') ∧
    trace s' =
      trace init ++ SessionRun
        :: model_calls encode_down (q_query <$> Fetch.reshape rows) "sales"
        ++ [error_message model_error; DriverClose].
Proof.
  apply (CycleMore.cycle_when_scoring_fails rows encode_down exact_dot "sales" init
           model_error).
  - discriminate.
  - discriminate.
  - reflexivity.
Defined.

Example ranked_records_example :
  q_id <$> ranked_records [1 # 2; 4 # 5]%Q (Fetch.reshape rows)
  = [PStr "q2"; PStr "q1"].
Proof. reflexivity. Qed.

(** A cycle from the empty heap. *)
Lemma tabs_always_have_labels_witness :
  ∃ evs,
    trace (request_cycle (inr rows) encode exact_dot "sales" init).2 =
      trace init ++ evs ∧
    Forall has_labels evs ∧
    objectives_nonempty (request_cycle (inr rows) encode exact_dot "sales" init).2.
Proof.
  apply (TabsFacts.tabs_always_have_labels (inr rows) encode exact_dot "sales" init).
  apply map_Forall_empty.
Defined.

End MoreWitness.

(** ** At most five entries *)

Module EntriesFacts.
Import App Effects CycleFacts Entries.

Lemma expanders_app evs1 evs2 :
  expanders (evs1 ++ evs2) = (expanders evs1 + expanders evs2)%nat.
Proof. unfold expanders. by rewrite filter_app, length_app. Qed.

Lemma expanders_none evs :
  Forall (λ ev, is_expander ev = false) evs → expanders evs = 0%nat.
Proof.
  unfold expanders. induction 1 as [|ev evs Hev _ IH]; [done|].
  rewrite filter_cons. case_decide; [congruence|done].
Qed.

Lemma opens_none {A} (m : M A) :
  emits (λ ev, is_expander ev = false) m → opens_at_most 0 m.
Proof.
  intros Hm s. destruct (Hm s) as (evs & Htrace & Hevs).
  exists evs. split; [done|]. by rewrite expanders_none.
Qed.

Lemma opens_weaken {A} n1 n2 (m : M A) :
  (n1 ≤ n2)%nat → opens_at_most n1 m → opens_at_most n2 m.
Proof.
  intros Hle Hm s. destruct (Hm s) as (evs & Htrace & Hevs).
  exists evs. split; [done|]. lia.
Qed.

Lemma opens_bind {A B} n1 n2 (m : M A) (k : A → M B) :
  opens_at_most n1 m → (∀ a, opens_at_most n2 (k a)) →
  opens_at_most (n1 + n2) (m ≫= k).
Proof.
  intros Hm Hk s. unfold_monad.
  destruct (Hm s) as (evs1 & Ht1 & Hn1).
  destruct (m s) as [[e|a] s1]; simpl in *.
  - exists evs1. split; [done|]. lia.
  - destruct (Hk a s1) as (evs2 & Ht2 & Hn2).
    exists (evs1 ++ evs2). rewrite Ht2, Ht1, app_assoc, expanders_app.
    split; [done|]. lia.
Qed.

Lemma opens_try_except {A} n1 n2 (m : M A) (h : Exn → M A) :
  opens_at_most n1 m → (∀ e, opens_at_most n2 (h e)) →
  opens_at_most (n1 + n2) (try_except m h).
Proof.
  intros Hm Hh s. unfold_monad.
  destruct (Hm s) as (evs1 & Ht1 & Hn1).
  destruct (m s) as [[e|a] s1]; simpl in *.
  - destruct (Hh e s1) as (evs2 & Ht2 & Hn2).
    exists (evs1 ++ evs2). rewrite Ht2, Ht1, app_assoc, expanders_app.
    split; [done|]. lia.
  - exists evs1. split; [done|]. lia.
Qed.

(** One entry opens one expander. *)
Lemma render_query_opens_one x : opens_at_most 1 (render_query x).
Proof.
  unfold render_query.
  apply (opens_bind 0 1); [apply opens_none; emits_auto|]. intros d.
  apply (opens_bind 1 0).
  - intros s. exists [StExpander (py_str (q_query d))]. by split.
  - intros _. apply opens_none. unfold st_tabs, render_objective.
    emits_auto.
Qed.

Lemma for_each_render_opens xs :
  opens_at_most (length xs) (for_each render_query xs).
Proof.
  induction xs as [|x xs IH]; simpl.
  { apply opens_none. emits_auto. }
  apply (opens_bind 1 (length xs)); [apply render_query_opens_one|].
  by intros _.
Qed.

Lemma present_opens l : opens_at_most 5 (present l).
Proof.
  unfold present.
  apply (opens_bind 0 5); [apply opens_none; emits_auto|]. intros qs.
  apply (opens_bind 0 5); [apply opens_none; emits_auto|]. intros top.
  apply (opens_bind 0 5); [apply opens_none; emits_auto|]. intros d.
  apply (opens_bind 0 5); [apply opens_none; emits_auto|]. intros x.
  destruct (Sorted.Qltb x threshold).
  - apply (opens_weaken 0); [lia|]. apply opens_none. emits_auto.
  - apply (opens_bind 0 5); [apply opens_none; emits_auto|]. intros _.
    eapply opens_weaken; [|apply for_each_render_opens].
    rewrite length_take. lia.
Qed.

(** X12: whatever the store and the model answer, and whether the cycle
    ends with the results, the warning or an error, it opens at most
    five entries on the page. *)
Theorem at_most_five_entries store encode dot input s :
  ∃ evs,
    trace (request_cycle store encode dot input s).2 = trace s ++ evs ∧
    (expanders evs ≤ 5)%nat.
Proof.
  destruct (decide (input = "")) as [->|Hne].
  { exists []. split; [by rewrite app_nil_r|]. unfold expanders. simpl. lia. }
  rewrite request_cycle_nonempty by done.
  assert (Hbody : opens_at_most 5
            (try_except (try_body store encode dot input) handler)).
  { apply (opens_try_except 5 0);
      [|intros e; apply opens_none; unfold handler; emits_auto].
    unfold try_body.
    apply (opens_bind 0 5).
    { apply opens_none. unfold fetch_queries_with_objectives_and_details.
      emits_auto. }
    intros queries.
    apply (opens_bind 0 5); [apply opens_none; emits_auto|]. intros [|x qs].
    { apply (opens_weaken 0); [lia|]. apply opens_none. emits_auto. }
    apply (opens_bind 0 5).
    { apply opens_none. unfold calculate_similarity, model_encode.
      emits_auto. }
    intros similar.
    apply (opens_bind 0 5); [|intros l; apply present_opens].
    apply opens_none. unfold sorted_by_similarity. emits_auto. }
  destruct (Hbody s) as (evs & Htrace & Hevs).
  unfold try_finally.
  destruct (try_except (try_body store encode dot input) handler s)
    as [r s1]. simpl in *.
  exists (evs ++ [DriverClose]). split; [by rewrite Htrace, app_assoc|].
  rewrite expanders_app. unfold expanders at 2. simpl. lia.
Qed.

End EntriesFacts.

(** ** What a cycle puts on the page *)

Module PageFacts.
Import Sorted SortedFacts App Effects FetchFacts FetchHeap RankFacts SortHeap
  RenderFacts CycleFacts Scoring ScoringFacts CycleMore Outcome OutcomeFacts
  TabsFacts.

(** The records of rows that can be rendered can be rendered. *)
Lemma reshape_well_typed rows :
  Forall row_typed rows → Forall well_typed (Fetch.reshape rows).
Proof.
  intros Hrows.
  pose proof (reshape_objectives rows) as Hobj.
  pose proof (reshape_objectives_nonempty rows) as Hne.
  rewrite Forall_forall in Hobj. rewrite Forall_forall in Hne.
  rewrite Forall_forall in Hrows.
  apply Forall_forall. intros q Hq. split; [by apply Hne|].
  rewrite (Hobj q Hq). apply Forall_fmap, Forall_forall.
  intros r Hr. unfold Fetch.rows_of in Hr.
  apply list_elem_of_filter in Hr as [_ Hr]. by apply Hrows.
Qed.

Lemma score_scored_records sims recs :
  length sims = length recs → score <$> scored_records sims recs = sims.
Proof.
  unfold scored_records. revert recs.
  induction sims as [|k sims IH]; intros [|d recs] Hlen; simpl in *;
    try done.
  f_equal. apply IH. lia.
Qed.

(** What lines 82-97 show for a ranked list, by the score at its head. *)
Lemma results_events_cases ranked top :
  head ranked = Some top →
  ((score top < 3 # 10)%Q →
   results_events ranked =
   [StWarning "The input query might not be relevant to marketing."]) ∧
  ((3 # 10 <= score top)%Q →
   results_events ranked =
   StSubheader "Top Similar Queries:"
   :: concat (query_events <$> take 5 ranked)).
Proof.
  destruct ranked as [|d ranked]; [done|]. intros [= ->].
  unfold results_events. fold (score top). unfold threshold. split.
  - intros Hlt. apply Qltb_lt in Hlt. by rewrite Hlt.
  - intros Hge. apply Qltb_ge in Hge. by rewrite Hge.
Qed.

Lemma cycle_page_run rows encode dot input s sims :
  rows ≠ [] →
  input ≠ "" →
  scores_of encode dot (q_query <$> Fetch.reshape rows) input = inr sims →
  length sims = length (Fetch.reshape rows) →
  Forall well_typed (Fetch.reshape rows) →
  ∃ s',
    request_cycle (inr rows) encode dot input s = (inr (), s') ∧
    trace s' =
      trace s ++ SessionRun
        :: model_calls encode (q_query <$> Fetch.reshape rows) input
        ++ results_events (ranked_records sims (Fetch.reshape rows))
        ++ [DriverClose].
Proof.
  intros Hrows Hne Hscores Hlen Htyped. rewrite request_cycle_run by done.
  destruct (try_body_scoring rows encode dot input s Hrows)
    as (l & refs & s0 & _ & Hl & Hrefs & Hnd & Htr & ->).
  assert (Hrecs : (0 < length (Fetch.reshape rows))%nat).
  { destruct (Fetch.reshape rows) eqn:Hnil; [|simpl; lia].
    by apply GroupingFacts.reshape_nonempty in Hrows. }
  generalize dependent (Fetch.reshape rows). intros recs Hscores Hlen Htyped.
  intros Hrefs Hrecs.
  pose proof (Forall2_length _ _ _ Hrefs) as Hlen_refs.
  (* scoring *)
  pose proof (calculate_similarity_cases encode dot l input s0 refs recs
                Hl Hrefs) as Hrank.
  rewrite Hscores in Hrank. unfold loop_result in Hrank.
  rewrite decide_True in Hrank by lia.
  rewrite (bind_inr _ _ _ _ _ Hrank). clear Hrank.
  set (calls := model_calls encode (q_query <$> recs) input).
  set (s1 := {| dicts := store_all (dicts s0) (zip refs sims);
                lists := lists s0; trace := trace s0 ++ calls |}).
  assert (Hrefs1 : points_to s1 refs (scored_records sims recs)).
  { by apply (points_to_scored s0 refs recs sims). }
  destruct (similarity_of_scored s1 refs recs sims Hrefs1 Hlen)
    as [Hkeys Hscored].
  (* sorting *)
  rewrite (bind_inr _ _ _ _ _ (sorted_by_similarity_run s1 l refs Hl Hscored)).
  rewrite Hkeys.
  set (l2 := fresh (dom (lists s1))).
  set (s2 := {| dicts := dicts s1;
                lists := <[l2 := sorted_reverse sims refs]> (lists s1);
                trace := trace s1 |}).
  assert (Hl2 : lists s2 !! l2 = Some (sorted_reverse sims refs)).
  { apply lookup_insert_eq. }
  assert (Hrefs2 : points_to s2 (sorted_reverse sims refs)
                     (ranked_records sims recs)).
  { by apply (sorted_reverse_related (λ x d, dicts s1 !! x = Some d)). }
  assert (Hranked : ranked_records sims recs ≡ₚ scored_records sims recs).
  { apply sorted_reverse_perm. unfold scored_records.
    rewrite length_zip_with. lia. }
  assert (Htyped' : Forall well_typed (ranked_records sims recs)).
  { rewrite Hranked. by apply scored_records_well_typed. }
  assert (Hsome : Forall (λ d, is_Some (q_similarity d))
                         (ranked_records sims recs)).
  { rewrite Hranked. apply scored_records_scored. }
  (* presenting *)
  destruct (ranked_records sims recs) as [|top ranked] eqn:Hrk.
  { apply Permutation_nil_l in Hranked.
    apply (f_equal length) in Hranked. unfold scored_records in Hranked.
    rewrite length_zip_with in Hranked. simpl in Hranked. lia. }
  destruct (sorted_reverse sims refs) as [|x srefs] eqn:Hsr;
    [by inversion Hrefs2|].
  apply Forall_cons in Hsome as [[k Hk] _].
  rewrite (present_run s2 l2 x srefs top ranked k Hl2 Hrefs2 Hk).
  unfold results_events. rewrite Hk. simpl from_option.
  destruct (Qltb k threshold).
  - rewrite emit_run. eexists. split; [done|]. simpl.
    rewrite Htr. subst calls. by rewrite <- !app_assoc.
  - rewrite (bind_inr _ _ _ _ _ (emit_run _ s2)).
    rewrite (render_queries_run (take 5 (x :: srefs)) (take 5 (top :: ranked))).
    + eexists. split; [done|]. simpl. rewrite Htr. subst calls.
      rewrite <- !app_assoc. simpl. by rewrite <- !app_assoc.
    + by apply Forall2_take.
    + by apply Forall_take.
Qed.

(** X10: a cycle on a store with rows whose objective names, traffic
    sources and KPIs are strings, with a score for every record, runs
    the query, calls the model twice, shows the results and closes the
    driver.  The results are those of the scored records in descending
    order of score, in the order of the store among equal scores: the
    warning alone when the first of them scores below 0.3, and otherwise
    the subheader and the first five of them (all of them when there
    are fewer), each with its objectives. *)
Theorem cycle_page rows encode dot input s sims :
  rows ≠ [] →
  input ≠ "" →
  scores_of encode dot (q_query <$> Fetch.reshape rows) input = inr sims →
  length sims = length (Fetch.reshape rows) →
  Forall row_typed rows →
  ∃ s' ranked body top,
    request_cycle (inr rows) encode dot input s = (inr (), s') ∧
    trace s' =
      trace s ++ SessionRun
        :: model_calls encode (q_query <$> Fetch.reshape rows) input
        ++ body ++ [DriverClose] ∧
    ranked ≡ₚ scored_records sims (Fetch.reshape rows) ∧
    StronglySorted (λ d1 d2, (score d2 <= score d1)%Q) ranked ∧
    (∀ k, filter (λ d, (score d == k)%Q) ranked =
          filter (λ d, (score d == k)%Q)
                 (scored_records sims (Fetch.reshape rows))) ∧
    head ranked = Some top ∧
    ((score top < 3 # 10)%Q →
     body = [StWarning "The input query might not be relevant to marketing."])
    ∧
    ((3 # 10 <= score top)%Q →
     body = StSubheader "Top Similar Queries:"
            :: concat (query_events <$> take 5 ranked)).
Proof.
  intros Hrows Hne Hscores Hlen Htyped.
  destruct (cycle_page_run rows encode dot input s sims Hrows Hne Hscores Hlen)
    as (s' & Hrun & Htrace); [by apply reshape_well_typed|].
  set (recs := Fetch.reshape rows) in *.
  destruct (sorted_reverse_by_key score (scored_records sims recs))
    as (Hperm & Hsorted & Hstable).
  rewrite score_scored_records in Hperm, Hsorted, Hstable by done.
  fold (ranked_records sims recs) in Hperm, Hsorted, Hstable.
  destruct (ranked_records sims recs) as [|top ranked] eqn:Hranked.
  { apply Permutation_nil_l in Hperm.
    apply (f_equal length) in Hperm. unfold scored_records in Hperm.
    rewrite length_zip_with in Hperm. simpl in Hperm.
    assert (recs ≠ []) by (by apply GroupingFacts.reshape_nonempty).
    destruct recs; [done|]. simpl in *. lia. }
  destruct (results_events_cases (top :: ranked) top eq_refl) as [Hlow Hhigh].
  exists s', (top :: ranked), (results_events (top :: ranked)), top.
  repeat (split; [done|]). done.
Qed.

End PageFacts.

(** ** The page at a concrete store *)

Module PageWitness.
Import App Example Scoring Outcome.

(** The rows of the example and the model of dimension two. *)
Lemma cycle_page_witness :
  ∃ s' ranked body top,
    request_cycle (inr rows) encode exact_dot "sales" init = (inr (), s') ∧
    trace s' =
      trace init ++ SessionRun
        :: model_calls encode (q_query <$> Fetch.reshape rows) "sales"
        ++ body ++ [DriverClose] ∧
    ranked ≡ₚ scored_records [1 # 2; 4 # 5]%Q (Fetch.reshape rows) ∧
    StronglySorted (λ d1 d2, (score d2 <= score d1)%Q) ranked ∧
    (∀ k, filter (λ d, (score d == k)%Q) ranked =
          filter (λ d, (score d == k)%Q)
                 (scored_records [1 # 2; 4 # 5]%Q (Fetch.reshape rows))) ∧
    head ranked = Some top ∧
    ((score top < 3 # 10)%Q →
     body = [StWarning "The input query might not be relevant to marketing."])
    ∧
    ((3 # 10 <= score top)%Q →
     body = StSubheader "Top Similar Queries:"
            :: concat (query_events <$> take 5 ranked)).
Proof.
  apply (PageFacts.cycle_page rows encode exact_dot "sales" init
           [1 # 2; 4 # 5]%Q).
  - discriminate.
  - discriminate.
  - reflexivity.
  - reflexivity.
  - repeat constructor.
Defined.

End PageWitness.
